(** * Tower of Hanoi cloud solver: a shallow embedding of
      [functions/src/index.ts] and the properties of its solver and validator.

    The class [HanoiCloudSolver] is embedded method by method.  The two
    arrays that [generateSolution] allocates and [solveHanoi] mutates in
    place ([simulationRods] and [moves]) become one simulation state that is
    threaded through the calls.  A call either returns, throws, or runs out
    of call stack; the last case is what the depth counter of the recursive
    definitions stands for. *)

From Stdlib Require Import ZArith QArith Qround Qpower.
From Stdlib Require Import List String Bool Lia.
From Stdlib Require Import Permutation Sorted DecimalString DecimalZ FinFun.
Import ListNotations.

(** ** Numbers

    A TypeScript [number] that holds a disk count or a disk size is
    modelled as an exact rational.  The program only decrements such a
    number by one and compares it against 0, 1 and 8, and on the finite
    doubles it can meet (absolute value below 2^53) that follows the same
    control flow as on rationals.  Integers are the rationals [inject_Z z];
    a value such as 1.5 is [3 # 2].  [NaN] and the infinities are not part
    of this type, so a statement over every [number] speaks of the finite
    values only; the disk count with these special values is [jsNumber]
    below, and the solver on it is [solveHanoiJS_fuel].  Rod indices, which
    the source only ever writes as the literals 0, 1 and 2, are integers
    ([Z]). *)

Definition number := Q.

Definition Qlt_bool (x y : number) : bool := negb (Qle_bool y x).

(** The integer a number denotes, if it denotes one. *)
Definition integerValue (x : number) : option Z :=
  if (Qnum x mod Zpos (Qden x) =? 0)%Z
  then Some (Qnum x / Zpos (Qden x))%Z
  else None.

(** ** Arrays

    An array is a list in index order, so a rod reads bottom to top and
    [push] and [pop] work at the end of the list. *)

Definition arrayLength {A : Type} (l : list A) : number :=
  inject_Z (Z.of_nat (List.length l)).

Definition push {A : Type} (l : list A) (x : A) : list A := l ++ [x].

(** [pop l] is the last element together with the shortened array, or
    [None] (JavaScript's [undefined]) on the empty array. *)
Fixpoint pop {A : Type} (l : list A) : option (A * list A) :=
  match l with
  | [] => None
  | x :: l' =>
      match pop l' with
      | None => Some (x, [])
      | Some (y, r) => Some (y, x :: r)
      end
  end.

(** [arr[i] = v] for an index inside the array. *)
Fixpoint assign {A : Type} (i : nat) (v : A) (l : list A) : list A :=
  match l, i with
  | [], _ => []
  | _ :: l', O => v :: l'
  | x :: l', S i' => x :: assign i' v l'
  end.

(** ** Data model (lines 23-37) *)

Record HanoiMove := mkMove {
  id : string;
  from : string;
  to : string;
  disk : number;
  description : string
}.

Record HanoiSolution := mkSolution {
  numberOfDisks : number;
  moves : list HanoiMove;
  totalMoves : number;
  source : string;
  isValid : bool
}.

(** ** Outcomes of a call *)

Inductive exn : Type :=
| Error (message : string)   (* [throw new Error(message)] *)
| TypeError.                 (* a property read on [undefined] *)

Inductive outcome (A : Type) : Type :=
| Returned (a : A)
| Threw (e : exn)
| OutOfFuel.

Arguments Returned {A} a.
Arguments Threw {A} e.
Arguments OutOfFuel {A}.

Definition bind {A B : Type} (m : outcome A) (k : A -> outcome B) : outcome B :=
  match m with
  | Returned a => k a
  | Threw e => Threw e
  | OutOfFuel => OutOfFuel
  end.

Notation "x <- m ;; k" := (bind m (fun x => k))
  (at level 61, m at next level, right associativity).

(** ** Simulation state

    [sim_rods] is the array [rods] and [sim_moves] the array [moves] that
    [solveHanoi] receives by reference; the rods are separate arrays, as
    [generateSolution] allocates them.  [sim_history] is specification-only
    state: it records the rod configuration after every completed move, so
    that properties of every intermediate configuration can be stated.  The
    source keeps no such record and no branch of the model reads it. *)

Record sim := mkSim {
  sim_rods : list (list number);
  sim_moves : list HanoiMove;
  sim_history : list (list (list number))
}.

Definition rodNames : list string := ["A"; "B"; "C"]%string.

(** ** Stand-ins for the runtime parameters

    On integer inputs the two runtime parameters are never consulted, and
    the statements below that mention a fractional input hold for every
    choice of them.  Where a closed term is needed, these two stand in. *)

Definition plainFraction : number -> string := fun _ => "?"%string.
Definition plainPow : number -> number -> number := fun _ _ => 0.

Definition emptyBoard : sim :=
  {| sim_rods := [[]; []; []]; sim_moves := []; sim_history := [] |}.

(** A one-disk run, before and after, and the solution for one disk. *)
Definition oneDiskMove : HanoiMove :=
  {| id := "move-1"; from := "A"; to := "C"; disk := 1;
     description := "Take disk 1 from rod A to rod C" |}.

Definition oneDiskStart : sim :=
  {| sim_rods := [[1]; []; []]; sim_moves := []; sim_history := [] |}.

Definition oneDiskDone : sim :=
  {| sim_rods := [[]; []; [1]];
     sim_moves := [oneDiskMove];
     sim_history := [[[]; []; [1]]] |}.

Definition oneDiskSolution : HanoiSolution :=
  {| numberOfDisks := 1;
     moves := [oneDiskMove];
     totalMoves := 1;
     source := "cloud_generated";
     isValid := true |}.

(** Three rods in mid-game: disks 5 and 3 lie on disk 9 on rod B, disk 7
    is alone on rod A. *)
Definition midGame : sim :=
  {| sim_rods := [[7]; [9; 5; 3]; []]; sim_moves := []; sim_history := [] |}.

(** Disk 5 on rod A and the smaller disk 3 on rod C. *)
Definition largeOverSmall : sim :=
  {| sim_rods := [[5]; []; [3]]; sim_moves := []; sim_history := [] |}.

Section Solver.

(** Two pieces of the JavaScript runtime are taken as parameters where no
    exact rational counterpart exists: the decimal rendering of a number
    that is not an integer, and [Math.pow] at an exponent that is not an
    integer. *)
Variable fractionToString : number -> string.
Variable Math_pow_frac : number -> number -> number.

(** Number-to-string conversion inside a template literal.  Integers print
    in decimal (exact for magnitudes below 10^21). *)
Definition numberToString (x : number) : string :=
  match integerValue x with
  | Some z => NilZero.string_of_int (Z.to_int z)
  | None => fractionToString x
  end.

(** [Math.pow(b, e)]: exact on integer exponents (within the range of
    doubles; the only call site has base 2). *)
Definition Math_pow (b e : number) : number :=
  match integerValue e with
  | Some z => Qpower b z
  | None => Math_pow_frac b e
  end.

(** *** Emitting one move (lines 112-124 and, verbatim again, 133-145)

    The result is [None] when the source takes one of its two early
    [return]s, and the updated state otherwise. *)
Definition emitMove (from to : Z) (st : sim) : outcome (option sim) :=
  match nth_error (sim_rods st) (Z.to_nat from) with
  | None => Threw TypeError
  | Some src =>
      if (List.length src =? 0)%nat then Returned None
      else
        match pop src with
        | None => Returned None
        | Some (disk, src') =>
            let rods1 := assign (Z.to_nat from) src' (sim_rods st) in
            match nth_error rods1 (Z.to_nat to) with
            | None => Threw TypeError
            | Some dst =>
                let rods2 := assign (Z.to_nat to) (push dst disk) rods1 in
                let fromName := nth (Z.to_nat from) rodNames EmptyString in
                let toName := nth (Z.to_nat to) rodNames EmptyString in
                let m :=
                  {| id := "move-" ++
                           numberToString (arrayLength (sim_moves st) + 1);
                     from := fromName;
                     to := toName;
                     disk := disk;
                     description :=
                       ("Take disk " ++ numberToString disk ++
                        " from rod " ++ fromName ++ " ") ++
                       ("to rod " ++ toName) |}%string in
                Returned (Some {| sim_rods := rods2;
                                  sim_moves := push (sim_moves st) m;
                                  sim_history := push (sim_history st) rods2 |})
            end
        end
  end.

(** *** [solveHanoi] (lines 94-149)

    [depth] is the number of stack frames still available; a call made with
    none left is [OutOfFuel]. *)
Fixpoint solveHanoi_fuel (depth : nat) (n : number) (from to auxiliary : Z)
    (st : sim) : outcome sim :=
  match depth with
  | O => OutOfFuel
  | S depth' =>
      if Qle_bool n 0 then Returned st
      else if ((from <? 0) || (from >? 2) || (to <? 0) || (to >? 2) ||
               (auxiliary <? 0) || (auxiliary >? 2))%Z then Returned st
      else if ((from =? to) || (from =? auxiliary) || (to =? auxiliary))%Z
           then Returned st
      else if Qeq_bool n 1 then
        r <- emitMove from to st ;;
        match r with
        | None => Returned st
        | Some st' => Returned st'
        end
      else
        st1 <- solveHanoi_fuel depth' (n - 1) from auxiliary to st ;;
        r <- emitMove from to st1 ;;
        match r with
        | None => Returned st1
        | Some st2 => solveHanoi_fuel depth' (n - 1) auxiliary to from st2
        end
  end.

(** Frames a call with first argument [n] can need: the chain of nested
    calls is [n], [n - 1], ... and stops at the first value that is 1 or is
    not positive. *)
Definition callDepth (n : number) : nat := S (Z.to_nat (Qceiling n)).

Definition solveHanoi (n : number) (from to auxiliary : Z) (st : sim)
    : outcome sim :=
  solveHanoi_fuel (callDepth n) n from to auxiliary st.

(** *** [isValidMove] (lines 171-177) and [validateSolution] (157-164) *)

Definition includes (l : list string) (s : string) : bool :=
  existsb (String.eqb s) l.

Definition isValidMove (move : HanoiMove) : bool :=
  let validRods := ["A"; "B"; "C"]%string in
  includes validRods (from move) &&
  includes validRods (to move) &&
  negb (String.eqb (from move) (to move)) &&
  Qlt_bool 0 (disk move).

Definition validateSolution (moves : list HanoiMove) (numberOfDisks : number)
    : bool :=
  let expectedMoves := Math_pow 2 numberOfDisks - 1 in
  let hasCorrectMoveCount := Qeq_bool (arrayLength moves) expectedMoves in
  let allMovesValid := forallb isValidMove moves in
  hasCorrectMoveCount && allMovesValid.

(** *** [generateSolution] (lines 58-83) *)

(** The loop of lines 68-70; [bound] caps the number of iterations. *)
Fixpoint initRods (bound : nat) (i : number) (simulationRods : list (list number))
    : outcome (list (list number)) :=
  if Qle_bool 1 i then
    match bound with
    | O => OutOfFuel
    | S bound' =>
        match nth_error simulationRods 0 with
        | None => Threw TypeError
        | Some rod0 =>
            initRods bound' (i - 1) (assign 0 (push rod0 i) simulationRods)
        end
    end
  else Returned simulationRods.

Definition rangeMessage : string := "Number of disks must be between 1 and 8.".

(** Lines 64-73: allocate the two arrays, load rod 0 and run the solver.
    The initial configuration opens the history. *)
Definition simulate (numberOfDisks : number) : outcome sim :=
  let moves : list HanoiMove := [] in
  let simulationRods : list (list number) := [[]; []; []] in
  simulationRods <-
    initRods (Z.to_nat (Qfloor numberOfDisks)) numberOfDisks simulationRods ;;
  solveHanoi numberOfDisks 0 2 1
    {| sim_rods := simulationRods;
       sim_moves := moves;
       sim_history := [simulationRods] |}.

Definition generateSolution (numberOfDisks : number) : outcome HanoiSolution :=
  if Qlt_bool numberOfDisks 1 || Qlt_bool 8 numberOfDisks
  then Threw (Error rangeMessage)
  else
    st <- simulate numberOfDisks ;;
    let moves := sim_moves st in
    Returned {| numberOfDisks := numberOfDisks;
                moves := moves;
                totalMoves := arrayLength moves;
                source := "cloud_generated";
                isValid := validateSolution moves numberOfDisks |}.

(** ** Specification vocabulary *)

(** The tower of [k] disks, bottom to top: [k; k-1; ...; 1]. *)
Fixpoint tower (k : nat) : list number :=
  match k with
  | O => []
  | S k' => inject_Z (Z.of_nat k) :: tower k'
  end.

(** A rod is in order when it strictly decreases from bottom to top, so the
    smallest disk is on top and every disk rests on a strictly larger one. *)
Definition descending (rod : list number) : Prop :=
  StronglySorted (fun below above => above < below) rod.

Definition legal (cfg : list (list number)) : Prop := Forall descending cfg.

(** The three role indices of a call are rod indices and pairwise distinct. *)
Definition rolesOk (from to auxiliary : Z) : Prop :=
  (0 <= from <= 2 /\ 0 <= to <= 2 /\ 0 <= auxiliary <= 2 /\
   from <> to /\ from <> auxiliary /\ to <> auxiliary)%Z.

Definition rod (i : Z) (cfg : list (list number)) : option (list number) :=
  nth_error cfg (Z.to_nat i).

(** *** Replaying a move list

    The replay is the independent check of the testable properties: it is
    written from their wording, not from the solver.  Each move takes the
    top disk of its source rod and puts it on its destination rod, and the
    replay stops at the first move that names no rod, finds its source rod
    empty, carries a disk other than the recorded one, or would put a disk
    on a smaller one. *)

Inductive replayError : Type :=
| UnknownRod
| EmptySource
| WrongDisk
| LargerOnSmaller.

Definition rodIndex (name : string) : option nat :=
  if String.eqb name "A" then Some 0%nat
  else if String.eqb name "B" then Some 1%nat
  else if String.eqb name "C" then Some 2%nat
  else None.

Definition fitsOn (d : number) (dst : list number) : bool :=
  match pop dst with
  | None => true
  | Some (top, _) => Qlt_bool d top
  end.

Definition replayMove (m : HanoiMove) (cfg : list (list number))
    : replayError + list (list number) :=
  match rodIndex (from m), rodIndex (to m) with
  | Some f, Some t =>
      match nth_error cfg f with
      | None => inl UnknownRod
      | Some src =>
          match pop src with
          | None => inl EmptySource
          | Some (d, src') =>
              if negb (Qeq_bool d (disk m)) then inl WrongDisk
              else
                let cfg1 := assign f src' cfg in
                match nth_error cfg1 t with
                | None => inl UnknownRod
                | Some dst =>
                    if fitsOn d dst
                    then inr (assign t (push dst d) cfg1)
                    else inl LargerOnSmaller
                end
          end
      end
  | _, _ => inl UnknownRod
  end.

Fixpoint replay (ms : list HanoiMove) (cfg : list (list number))
    : replayError + list (list number) :=
  match ms with
  | [] => inr cfg
  | m :: ms' =>
      match replayMove m cfg with
      | inl e => inl e
      | inr cfg' => replay ms' cfg'
      end
  end.

(** A move as the validator wants it. *)
Definition wellFormed (m : HanoiMove) : Prop :=
  In (from m) ["A"; "B"; "C"]%string /\
  In (to m) ["A"; "B"; "C"]%string /\
  from m <> to m /\
  0 < disk m.

(** ** Notions used in the proofs *)

Definition threeRods (st : sim) : Prop := List.length (sim_rods st) = 3%nat.

(** The configuration after the top disk [d] of rod [f] (what stays is [F])
    has gone onto rod [t] (which held [T]). *)
Definition afterMove (f t : Z) (F T : list number) (d : number)
    (cfg : list (list number)) : list (list number) :=
  assign (Z.to_nat t) (push T d) (assign (Z.to_nat f) F cfg).

(** Disk [k] as a number. *)
Definition diskOf (k : nat) : number := inject_Z (Z.of_nat k).

(** The start and the goal for [k] disks. *)
Definition initialRods (k : nat) : list (list number) := [tower k; []; []].
Definition solvedRods (k : nat) : list (list number) := [[]; []; tower k].

Definition initialSim (k : nat) : sim :=
  {| sim_rods := initialRods k;
     sim_moves := [];
     sim_history := [initialRods k] |}.

(** What a call on a tower of [k] disks achieves: the tower goes from the
    source rod to the destination rod, everything else stays where it is,
    and [ms] and [hs] are the moves and configurations added on the way. *)
Record moved (k : nat) (F T A : list number) (f t a : Z) (st st' : sim)
    (ms : list HanoiMove) (hs : list (list (list number))) : Prop := {
  mv_from : rod f (sim_rods st') = Some F;
  mv_to : rod t (sim_rods st') = Some (T ++ tower k);
  mv_aux : rod a (sim_rods st') = Some A;
  mv_three : threeRods st';
  mv_legal : legal (sim_rods st');
  mv_perm : Permutation (List.concat (sim_rods st'))
                        (List.concat (sim_rods st));
  mv_moves : sim_moves st' = sim_moves st ++ ms;
  mv_history : sim_history st' = sim_history st ++ hs;
  mv_count : S (List.length ms) = (2 ^ k)%nat;
  mv_steps : List.length hs = List.length ms;
  mv_hist_three : Forall (fun h => List.length h = 3%nat) hs;
  mv_hist_legal : Forall legal hs;
  mv_hist_perm :
    Forall (fun h => Permutation (List.concat h) (List.concat (sim_rods st))) hs;
  mv_last : last hs (sim_rods st) = sim_rods st';
  mv_replay : replay ms (sim_rods st) = inr (sim_rods st');
  mv_valid : forallb isValidMove ms = true
}.

(** The expected moves of the one-disk and two-disk scenarios. *)
Definition moveA_C_1 : HanoiMove :=
  {| id := "move-1"; from := "A"; to := "C"; disk := 1;
     description := "Take disk 1 from rod A to rod C" |}.

Definition movesFor2 : list HanoiMove :=
  [ {| id := "move-1"; from := "A"; to := "B"; disk := 1;
       description := "Take disk 1 from rod A to rod B" |};
    {| id := "move-2"; from := "A"; to := "C"; disk := 2;
       description := "Take disk 2 from rod A to rod C" |};
    {| id := "move-3"; from := "B"; to := "C"; disk := 1;
       description := "Take disk 1 from rod B to rod C" |} ].

(** Case analysis on the two guards of lines 106-108. *)
Ltac case_guards from to auxiliary G1 G2 :=
  destruct ((from <? 0) || (from >? 2) || (to <? 0) || (to >? 2) ||
            (auxiliary <? 0) || (auxiliary >? 2))%Z eqn:G1;
  [|destruct ((from =? to) || (from =? auxiliary) || (to =? auxiliary))%Z
      eqn:G2].

(** ** The callable function (lines 185-221)

    [request.data] can be any value; the handler reads one property of it,
    tests it, calls the solver and wraps the outcome.  The three [logger]
    calls do not influence the response; they are kept as the entries the
    handler writes, each with the values its message interpolates ([NaN],
    like the other values outside the rationals, is not represented). *)

#[warnings="-register-all"]
Inductive jsValue : Type :=
| JUndefined
| JNull
| JBoolean (b : bool)
| JNumber (x : number)
| JString (s : string)
| JObject (fields : list (string * jsValue)).

(** [!v] is [negb (truthy v)]. *)
Definition truthy (v : jsValue) : bool :=
  match v with
  | JUndefined | JNull => false
  | JBoolean b => b
  | JNumber x => negb (Qeq_bool x 0)
  | JString s => negb (String.eqb s EmptyString)
  | JObject _ => true
  end.

Definition typeof (v : jsValue) : string :=
  match v with
  | JUndefined => "undefined"
  | JNull => "object"
  | JBoolean _ => "boolean"
  | JNumber _ => "number"
  | JString _ => "string"
  | JObject _ => "object"
  end.

(** Property read on an object, whose keys are distinct: the value under
    the key, or [undefined]. *)
Fixpoint getProperty (key : string) (fields : list (string * jsValue))
    : jsValue :=
  match fields with
  | [] => JUndefined
  | (k, v) :: rest => if String.eqb k key then v else getProperty key rest
  end.

(** [const {numberOfDisks} = data]: a [TypeError] ([None]) on [undefined]
    and [null], a property read on an object, [undefined] on the other
    primitives. *)
Definition destructure (key : string) (data : jsValue) : option jsValue :=
  match data with
  | JUndefined | JNull => None
  | JObject fields => Some (getProperty key fields)
  | JBoolean _ | JNumber _ | JString _ => Some JUndefined
  end.

(** The number held by a value whose [typeof] is ["number"]. *)
Definition numberOf (v : jsValue) : number :=
  match v with
  | JNumber x => x
  | _ => 0
  end.

(** What the [try] block can throw. *)
Inductive raised : Type :=
| HttpsError (code message : string)
| Native (e : exn).

Inductive logEntry : Type :=
| InfoRequest (numberOfDisks : number)                (* line 202 *)
| InfoGenerated (numberOfDisks totalMoves : number)   (* lines 208-211 *)
| ErrorGenerating (error : raised).                   (* line 218 *)

Record SolutionResponse := mkResponse {
  success : bool;
  solution : option HanoiSolution;
  error : option string
}.

Inductive attempt (A : Type) : Type :=
| Completed (a : A)
| Raised (e : raised)
| Unfinished.

Arguments Completed {A} a.
Arguments Raised {A} e.
Arguments Unfinished {A}.

(** The [try] block, lines 188-216, with the log entries written so far. *)
Definition tryBlock (data : jsValue)
    : list logEntry * attempt SolutionResponse :=
  match destructure "numberOfDisks" data with
  | None => ([], Raised (Native TypeError))
  | Some numberOfDisks =>
      if negb (truthy numberOfDisks) ||
         negb (String.eqb (typeof numberOfDisks) "number")
      then ([], Raised (HttpsError "invalid-argument"
                                   "numberOfDisks must be a number."))
      else
        let x := numberOf numberOfDisks in
        if Qlt_bool x 1 || Qlt_bool 8 x
        then ([], Raised (HttpsError "invalid-argument"
                                     "numberOfDisks must be between 1 and 8."))
        else
          match generateSolution x with
          | Returned solution =>
              ([InfoRequest x; InfoGenerated x (totalMoves solution)],
               Completed {| success := true;
                            solution := Some solution;
                            error := None |})
          | Threw e => ([InfoRequest x], Raised (Native e))
          | OutOfFuel => ([InfoRequest x], Unfinished)
          end
  end.

(** The handler: the [try] block and its [catch], lines 217-220. *)
Definition getTowerOfHanoiSolution (data : jsValue)
    : list logEntry * attempt SolutionResponse :=
  match tryBlock data with
  | (log, Raised e) =>
      (log ++ [ErrorGenerating e],
       Completed {| success := false;
                    solution := None;
                    error := Some "Internal server error."%string |})
  | finished => finished
  end.

(** The one response of the [catch] clause. *)
Definition failureResponse : SolutionResponse :=
  {| success := false;
     solution := None;
     error := Some "Internal server error."%string |}.

(** The requests that get past both checks of the handler: an object whose
    [numberOfDisks] is a number [x] between 1 and 8. *)
Definition accepted (data : jsValue) (x : number) : Prop :=
  exists fields,
    data = JObject fields /\
    getProperty "numberOfDisks" fields = JNumber x /\
    1 <= x /\ x <= 8.

(** ** The disk count as any JavaScript number

    [generateSolution] and [solveHanoi] take their first argument as it
    comes, so it can also be [NaN] or an infinity.  The comparisons and the
    decrement follow IEEE 754 on these values: every comparison with [NaN]
    is false, [NaN - 1] is [NaN], and an infinity minus one is the same
    infinity.  On finite values the arithmetic is the exact one of
    [number].  The rods keep holding finite disks: the loading loop pushes
    a value only while it is at least 1 and the range check has excluded
    [+Infinity] before. *)

Inductive jsNumber : Type :=
| Finite (q : number)
| NaN
| PosInfinity
| NegInfinity.

(** [x <= y] *)
Definition js_le (x y : jsNumber) : bool :=
  match x, y with
  | NaN, _ | _, NaN => false
  | Finite p, Finite q => Qle_bool p q
  | NegInfinity, _ => true
  | _, PosInfinity => true
  | PosInfinity, _ => false
  | Finite _, NegInfinity => false
  end.

(** [x < y] *)
Definition js_lt (x y : jsNumber) : bool :=
  match x, y with
  | NaN, _ | _, NaN => false
  | Finite p, Finite q => Qlt_bool p q
  | PosInfinity, _ => false
  | _, NegInfinity => false
  | NegInfinity, _ => true
  | Finite _, PosInfinity => true
  end.

(** [x === y] *)
Definition js_eq (x y : jsNumber) : bool :=
  match x, y with
  | Finite p, Finite q => Qeq_bool p q
  | PosInfinity, PosInfinity => true
  | NegInfinity, NegInfinity => true
  | _, _ => false
  end.

(** [x - 1] *)
Definition js_pred (x : jsNumber) : jsNumber :=
  match x with
  | Finite q => Finite (q - 1)
  | NaN => NaN
  | PosInfinity => PosInfinity
  | NegInfinity => NegInfinity
  end.

(** [solveHanoi] (lines 94-149) with its first argument ranging over
    [jsNumber]; the statements are those of [solveHanoi_fuel]. *)
Fixpoint solveHanoiJS_fuel (depth : nat) (n : jsNumber)
    (from to auxiliary : Z) (st : sim) : outcome sim :=
  match depth with
  | O => OutOfFuel
  | S depth' =>
      if js_le n (Finite 0) then Returned st
      else if ((from <? 0) || (from >? 2) || (to <? 0) || (to >? 2) ||
               (auxiliary <? 0) || (auxiliary >? 2))%Z then Returned st
      else if ((from =? to) || (from =? auxiliary) || (to =? auxiliary))%Z
           then Returned st
      else if js_eq n (Finite 1) then
        r <- emitMove from to st ;;
        match r with
        | None => Returned st
        | Some st' => Returned st'
        end
      else
        st1 <- solveHanoiJS_fuel depth' (js_pred n) from auxiliary to st ;;
        r <- emitMove from to st1 ;;
        match r with
        | None => Returned st1
        | Some st2 => solveHanoiJS_fuel depth' (js_pred n) auxiliary to from st2
        end
  end.

(** The loop of lines 68-70 on a [jsNumber].  At [+Infinity] the test
    [i >= 1] stays true and [i--] changes nothing, so the loop does not
    end, whatever [bound] is. *)
Fixpoint initRodsJS (bound : nat) (i : jsNumber)
    (simulationRods : list (list number)) : outcome (list (list number)) :=
  if js_le (Finite 1) i then
    match bound with
    | O => OutOfFuel
    | S bound' =>
        match i with
        | Finite q =>
            match nth_error simulationRods 0 with
            | None => Threw TypeError
            | Some rod0 =>
                initRodsJS bound' (js_pred i)
                  (assign 0 (push rod0 q) simulationRods)
            end
        | _ => OutOfFuel
        end
    end
  else Returned simulationRods.

(** Lines 58-73 of [generateSolution] on a [jsNumber]: the range check,
    the two allocations, the loading loop and the call of the solver.
    [depth] is the stack available to the solver and [bound] the number of
    rounds allowed to the loop. *)
Definition generateSolutionJS_run (depth bound : nat) (numberOfDisks : jsNumber)
    : outcome sim :=
  if js_lt numberOfDisks (Finite 1) || js_lt (Finite 8) numberOfDisks
  then Threw (Error rangeMessage)
  else
    let moves : list HanoiMove := [] in
    let simulationRods : list (list number) := [[]; []; []] in
    simulationRods <- initRodsJS bound numberOfDisks simulationRods ;;
    solveHanoiJS_fuel depth numberOfDisks 0 2 1
      {| sim_rods := simulationRods;
         sim_moves := moves;
         sim_history := [simulationRods] |}.

(** Two requests used as examples: [{numberOfDisks: 1}] and
    [{numberOfDisks: 2.5}]. *)
Definition oneDiskRequest : jsValue :=
  JObject [("numberOfDisks"%string, JNumber 1)].

Definition fractionalRequest : jsValue :=
  JObject [("numberOfDisks"%string, JNumber (5 # 2))].

(** ** Further vocabulary *)

(** How many disks a call with first argument [n] sets out to move: the
    nesting depth of its recursion. *)
Definition levels (n : number) : nat := Z.to_nat (Qceiling n).

Definition decimal (k : nat) : string :=
  NilZero.string_of_int (Z.to_int (Z.of_nat k)).

Definition moveId (k : nat) : string := ("move-" ++ decimal k)%string.

(** The record [emitMove] builds when [count] moves are already listed. *)
Definition moveRecord (count : nat) (f t : Z) (d : number) : HanoiMove :=
  let fromName := nth (Z.to_nat f) rodNames EmptyString in
  let toName := nth (Z.to_nat t) rodNames EmptyString in
  {| id := "move-" ++ numberToString (inject_Z (Z.of_nat count) + 1);
     from := fromName;
     to := toName;
     disk := d;
     description :=
       ("Take disk " ++ numberToString d ++
        " from rod " ++ fromName ++ " ") ++
       ("to rod " ++ toName) |}%string.

(** The textbook recursion on a stack of disks [D] (bottom first): move
    what lies on the bottom disk to the spare rod, move the bottom disk,
    move the rest on top of it.  [count] moves precede the first one. *)
Fixpoint hanoiMoves (D : list number) (f t a : Z) (count : nat)
    : list HanoiMove :=
  match D with
  | [] => []
  | d :: D' =>
      let first := hanoiMoves D' f a t count in
      first ++
      moveRecord (count + List.length first) f t d ::
      hanoiMoves D' a t f (S (count + List.length first))
  end.

(** [i; i - 1; ...], [m] entries. *)
Fixpoint countdown (i : number) (m : nat) : list number :=
  match m with
  | O => []
  | S m' => i :: countdown (i - 1) m'
  end.

(** Every disk of [D] is smaller than every disk of [l]. *)
Definition smaller (D l : list number) : Prop :=
  Forall (fun x => Forall (fun d => d < x) D) l.

Definition nonInteger (x : number) : Prop := forall z : Z, ~ x == inject_Z z.

Definition rodNamed (m : HanoiMove) : Prop :=
  In (from m) rodNames /\ In (to m) rodNames /\ from m <> to m.

(** Carrying out a move list without judging it: each move takes the top
    disk of its source rod, which must be the disk it records, and puts it
    on its destination rod. *)
Definition performMove (m : HanoiMove) (cfg : list (list number))
    : option (list (list number)) :=
  match rodIndex (from m), rodIndex (to m) with
  | Some f, Some t =>
      match nth_error cfg f with
      | None => None
      | Some src =>
          match pop src with
          | None => None
          | Some (d, src') =>
              if Qeq_bool d (disk m) then
                let cfg1 := assign f src' cfg in
                match nth_error cfg1 t with
                | None => None
                | Some dst => Some (assign t (push dst d) cfg1)
                end
              else None
          end
      end
  | _, _ => None
  end.

Fixpoint performMoves (ms : list HanoiMove) (cfg : list (list number))
    : option (list (list number)) :=
  match ms with
  | [] => Some cfg
  | m :: ms' =>
      match performMove m cfg with
      | None => None
      | Some cfg' => performMoves ms' cfg'
      end
  end.

(** What any returning call has done to the state it was given. *)
Record traced (st st' : sim) (ms : list HanoiMove) : Prop := {
  tr_moves : sim_moves st' = sim_moves st ++ ms;
  tr_history :
    exists hs, sim_history st' = sim_history st ++ hs /\
               List.length hs = List.length ms;
  tr_rods : List.length (sim_rods st') = List.length (sim_rods st);
  tr_perm : Permutation (List.concat (sim_rods st'))
                        (List.concat (sim_rods st));
  tr_named : Forall rodNamed ms;
  tr_disks : Forall (fun m => In (disk m) (List.concat (sim_rods st))) ms;
  tr_ids : map id ms =
           map moveId (seq (S (List.length (sim_moves st))) (List.length ms));
  tr_perform : performMoves ms (sim_rods st) = Some (sim_rods st')
}.

(** What a call achieves on a stack [D] that tops rod [f]. *)
Record carried (D F T A : list number) (f t a : Z) (st st' : sim) : Prop := {
  ca_from : rod f (sim_rods st') = Some F;
  ca_to : rod t (sim_rods st') = Some (T ++ D);
  ca_aux : rod a (sim_rods st') = Some A;
  ca_three : threeRods st';
  ca_legal : legal (sim_rods st');
  ca_moves :
    sim_moves st' =
    sim_moves st ++ hanoiMoves D f t a (List.length (sim_moves st));
  ca_history :
    exists hs, sim_history st' = sim_history st ++ hs /\
               Forall legal hs /\
               last hs (sim_rods st) = sim_rods st';
  ca_replay :
    replay (hanoiMoves D f t a (List.length (sim_moves st))) (sim_rods st)
    = inr (sim_rods st')
}.

(** ** Sanity checks of the vocabulary *)

Example tower_3 : tower 3 = [3; 2; 1].
Proof. reflexivity. Qed.

Example replay_rejects_larger_on_smaller :
  replay [ {| id := "move-1"; from := "A"; to := "C"; disk := 1;
              description := EmptyString |};
           {| id := "move-2"; from := "A"; to := "C"; disk := 2;
              description := EmptyString |} ]
         [[2; 1]; []; []]
  = inl LargerOnSmaller.
Proof. reflexivity. Qed.

Example replay_rejects_empty_source :
  replay [ {| id := "move-1"; from := "B"; to := "C"; disk := 1;
              description := EmptyString |} ]
         [[2; 1]; []; []]
  = inl EmptySource.
Proof. reflexivity. Qed.

(** ** Facts about arrays *)

Section ArrayFacts.
Context {A : Type}.
Implicit Types (l r : list A) (x v : A) (i j : nat).

Lemma pop_push l x : pop (push l x) = Some (x, l).
Proof.
  unfold push. induction l as [|y l IH]; simpl; [reflexivity|].
  now rewrite IH.
Qed.

Lemma pop_Some l x r : pop l = Some (x, r) -> l = push r x.
Proof.
  revert x r. induction l as [|y l IH]; simpl; intros x r H; [discriminate|].
  destruct (pop l) as [[z r']|] eqn:E.
  - inversion H; subst. now rewrite (IH _ _ eq_refl).
  - inversion H; subst. destruct l as [|w l]; [reflexivity|].
    simpl in E. destruct (pop l) as [[? ?]|]; discriminate.
Qed.

Lemma pop_None l : pop l = None -> l = [].
Proof.
  destruct l as [|y l]; [reflexivity|]. simpl.
  destruct (pop l) as [[? ?]|]; discriminate.
Qed.

Lemma length_assign i v l : List.length (assign i v l) = List.length l.
Proof.
  revert i. induction l as [|y l IH]; intros [|i]; simpl; auto.
Qed.

Lemma nth_error_assign_eq i v l :
  (i < List.length l)%nat -> nth_error (assign i v l) i = Some v.
Proof.
  revert i. induction l as [|y l IH]; intros [|i]; simpl; intros H;
    try lia; [reflexivity|]. apply IH. lia.
Qed.

Lemma nth_error_assign_ne i j v l :
  i <> j -> nth_error (assign i v l) j = nth_error l j.
Proof.
  revert i j. induction l as [|y l IH]; intros [|i] [|j] H; simpl;
    try reflexivity; try congruence. apply IH. congruence.
Qed.

Lemma Forall_assign (P : A -> Prop) i v l :
  Forall P l -> P v -> Forall P (assign i v l).
Proof.
  intros Hl Hv. revert i.
  induction Hl as [|y l Hy Hl IH]; intros [|i]; simpl; auto.
Qed.

End ArrayFacts.

(** Replacing one rod replaces its disks in the multiset of all disks. *)
Lemma concat_assign {A : Type} (i : nat) (old new : list A) (cfg : list (list A)) :
  nth_error cfg i = Some old ->
  exists rest,
    Permutation (List.concat cfg) (old ++ rest) /\
    Permutation (List.concat (assign i new cfg)) (new ++ rest).
Proof.
  revert i. induction cfg as [|c cfg IH]; intros [|i] H; simpl in *;
    try discriminate.
  - inversion H; subst. exists (List.concat cfg). split; apply Permutation_refl.
  - destruct (IH _ H) as (rest & P1 & P2). exists (c ++ rest). split.
    + rewrite P1. rewrite !app_assoc.
      apply Permutation_app_tail, Permutation_app_comm.
    + rewrite P2. rewrite !app_assoc.
      apply Permutation_app_tail, Permutation_app_comm.
Qed.

(** ** Facts about numbers *)

Lemma inject_Z_pred (z : Z) : inject_Z z - 1 = inject_Z (z - 1).
Proof.
  unfold Qminus, Qplus, Qopp, inject_Z. simpl. f_equal. lia.
Qed.

Lemma Qle_bool_inject (a b : Z) :
  Qle_bool (inject_Z a) (inject_Z b) = (a <=? b)%Z.
Proof.
  unfold Qle_bool, inject_Z. simpl. now rewrite !Z.mul_1_r.
Qed.

Lemma Qeq_bool_inject (a b : Z) :
  Qeq_bool (inject_Z a) (inject_Z b) = (a =? b)%Z.
Proof.
  apply eq_true_iff_eq. rewrite Qeq_bool_iff, Z.eqb_eq.
  unfold Qeq, inject_Z. simpl. lia.
Qed.

Lemma integerValue_inject (z : Z) : integerValue (inject_Z z) = Some z.
Proof.
  unfold integerValue, inject_Z. simpl.
  rewrite Z.mod_1_r, Z.div_1_r. reflexivity.
Qed.

(** ** The validator *)

Lemma includes_In (l : list string) (s : string) :
  includes l s = true <-> In s l.
Proof.
  unfold includes. rewrite existsb_exists. split.
  - intros (x & Hx & E). apply String.eqb_eq in E. now subst.
  - intros H. exists s. split; [assumption | apply String.eqb_refl].
Qed.

Lemma Qlt_bool_iff (x y : number) : Qlt_bool x y = true <-> x < y.
Proof.
  unfold Qlt_bool. rewrite negb_true_iff. split.
  - intros H. apply Qnot_le_lt. intros L.
    apply Qle_bool_iff in L. congruence.
  - intros H. destruct (Qle_bool y x) eqn:E; [|reflexivity].
    apply Qle_bool_iff in E. exfalso. exact (Qlt_not_le _ _ H E).
Qed.

Lemma isValidMove_iff (m : HanoiMove) : isValidMove m = true <-> wellFormed m.
Proof.
  unfold isValidMove, wellFormed.
  rewrite !andb_true_iff, !includes_In, negb_true_iff, Qlt_bool_iff.
  rewrite String.eqb_neq. tauto.
Qed.

Lemma validateSolution_integer (ms : list HanoiMove) (n : Z) :
  validateSolution ms (inject_Z n) =
  Qeq_bool (arrayLength ms) (Qpower 2 n - 1) && forallb isValidMove ms.
Proof.
  unfold validateSolution, Math_pow. now rewrite integerValue_inject.
Qed.

(** C4.  For every move list [ms] and every integer [n], the validator
    answers [true] exactly when [ms] has [2^n - 1] entries and each entry has
    its source and its destination among the labels A, B and C, source and
    destination different, and a strictly positive disk.  The validator is
    a function of its two arguments alone: the source only reads [moves]
    (through [length], [every] and [includes]), so the embedding has no
    state to return. *)
Theorem validateSolution_iff (ms : list HanoiMove) (n : Z) :
  validateSolution ms (inject_Z n) = true <->
  (arrayLength ms == Qpower 2 n - 1 /\ Forall wellFormed ms).
Proof.
  rewrite validateSolution_integer.
  rewrite andb_true_iff, Qeq_bool_iff, forallb_forall, Forall_forall.
  split; intros [Hc Hm]; split; try assumption;
    intros m Hin; apply isValidMove_iff; auto.
Qed.

(** ** Calls with unusable rod roles *)

Lemma roles_guard (from to auxiliary : Z) :
  ((from <? 0) || (from >? 2) || (to <? 0) || (to >? 2) ||
   (auxiliary <? 0) || (auxiliary >? 2))%Z = false ->
  ((from =? to) || (from =? auxiliary) || (to =? auxiliary))%Z = false ->
  rolesOk from to auxiliary.
Proof.
  rewrite !orb_false_iff, !Z.gtb_ltb, !Z.ltb_ge, !Z.eqb_neq.
  unfold rolesOk. lia.
Qed.

Lemma roles_guard_pass (from to auxiliary : Z) :
  rolesOk from to auxiliary ->
  ((from <? 0) || (from >? 2) || (to <? 0) || (to >? 2) ||
   (auxiliary <? 0) || (auxiliary >? 2))%Z = false /\
  ((from =? to) || (from =? auxiliary) || (to =? auxiliary))%Z = false.
Proof.
  rewrite !orb_false_iff, !Z.gtb_ltb, !Z.ltb_ge, !Z.eqb_neq.
  unfold rolesOk. lia.
Qed.

(** C9.  Whatever [n], the rods and the move list are, a call whose three
    role indices are not pairwise distinct, or not all within 0..2, returns
    the state it was given: one stack frame is enough, so it makes no
    recursive call, and rods, moves and history are unchanged. *)
Theorem solveHanoi_rejects_bad_roles
    (n : number) (from to auxiliary : Z) (st : sim) :
  ~ rolesOk from to auxiliary ->
  solveHanoi n from to auxiliary st = Returned st /\
  forall depth, solveHanoi_fuel (S depth) n from to auxiliary st = Returned st.
Proof.
  intros Hbad.
  assert (H : forall depth,
             solveHanoi_fuel (S depth) n from to auxiliary st = Returned st).
  { intros depth. simpl.
    destruct (Qle_bool n 0); [reflexivity|].
    destruct ((from <? 0) || (from >? 2) || (to <? 0) || (to >? 2) ||
              (auxiliary <? 0) || (auxiliary >? 2))%Z eqn:G1; [reflexivity|].
    destruct ((from =? to) || (from =? auxiliary) || (to =? auxiliary))%Z
      eqn:G2; [reflexivity|].
    exfalso. apply Hbad. now apply roles_guard. }
  split; [apply H | exact H].
Qed.

(** ** Concrete runs *)

(** C8 (amended).  [generateSolution(3)] has exactly 7 moves and they pass
    the validator; disk 3 is put on rod C by the fourth move, and the final
    (seventh) move puts disk 1 on rod C.  [generateSolution(1)] is the
    single move of disk 1 from A to C, and [generateSolution(2)] is disk 1
    A to B, disk 2 A to C, disk 1 B to C. *)
Theorem concrete_scenarios :
  (exists sol m4 m7,
      generateSolution 3 = Returned sol /\
      List.length (moves sol) = 7%nat /\
      nth_error (moves sol) 3 = Some m4 /\
      (disk m4 = 3 /\ from m4 = "A"%string /\ to m4 = "C"%string) /\
      nth_error (moves sol) 6 = Some m7 /\
      (disk m7 = 1 /\ from m7 = "A"%string /\ to m7 = "C"%string) /\
      validateSolution (moves sol) 3 = true) /\
  (exists sol,
      generateSolution 1 = Returned sol /\ moves sol = [moveA_C_1]) /\
  (exists sol,
      generateSolution 2 = Returned sol /\ moves sol = movesFor2).
Proof.
  split; [|split].
  - eexists. eexists. eexists. split; [vm_compute; reflexivity|].
    split; [vm_compute; reflexivity|].
    split; [vm_compute; reflexivity|].
    split; [split; [|split]; vm_compute; reflexivity|].
    split; [vm_compute; reflexivity|].
    split; [split; [|split]; vm_compute; reflexivity|].
    vm_compute; reflexivity.
  - eexists. split; vm_compute; reflexivity.
  - eexists. split; vm_compute; reflexivity.
Qed.

(** ** Termination and absence of exceptions *)

Lemma solveHanoi_fuel_S (depth : nat) (n : number) (from to auxiliary : Z)
    (st : sim) :
  solveHanoi_fuel (S depth) n from to auxiliary st =
  if Qle_bool n 0 then Returned st
  else if ((from <? 0) || (from >? 2) || (to <? 0) || (to >? 2) ||
           (auxiliary <? 0) || (auxiliary >? 2))%Z then Returned st
  else if ((from =? to) || (from =? auxiliary) || (to =? auxiliary))%Z
       then Returned st
  else if Qeq_bool n 1 then
    r <- emitMove from to st ;;
    match r with
    | None => Returned st
    | Some st' => Returned st'
    end
  else
    st1 <- solveHanoi_fuel depth (n - 1) from auxiliary to st ;;
    r <- emitMove from to st1 ;;
    match r with
    | None => Returned st1
    | Some st2 => solveHanoi_fuel depth (n - 1) auxiliary to from st2
    end.
Proof. reflexivity. Qed.

(** One more frame changes nothing once a call has finished. *)
Lemma solveHanoi_fuel_step (depth : nat) :
  forall n from to auxiliary st,
    solveHanoi_fuel depth n from to auxiliary st <> OutOfFuel ->
    solveHanoi_fuel (S depth) n from to auxiliary st =
    solveHanoi_fuel depth n from to auxiliary st.
Proof.
  induction depth as [|depth IH]; intros n from to auxiliary st H.
  - simpl in H. congruence.
  - rewrite (solveHanoi_fuel_S (S depth)).
    rewrite (solveHanoi_fuel_S depth n from to auxiliary st) in H |- *.
    destruct (Qle_bool n 0); [reflexivity|].
    case_guards from to auxiliary G1 G2; [reflexivity|reflexivity|].
    destruct (Qeq_bool n 1); [reflexivity|].
    destruct (solveHanoi_fuel depth (n - 1) from auxiliary to st)
      as [st1| |] eqn:E1.
    + rewrite IH by (rewrite E1; discriminate). rewrite E1. simpl in *.
      destruct (emitMove from to st1) as [[st2|]| |]; simpl in *;
        try reflexivity.
      apply IH. exact H.
    + rewrite IH by (rewrite E1; discriminate). rewrite E1. reflexivity.
    + simpl in H. congruence.
Qed.

Lemma solveHanoi_fuel_mono (d1 d2 : nat) n from to auxiliary st :
  (d1 <= d2)%nat ->
  solveHanoi_fuel d1 n from to auxiliary st <> OutOfFuel ->
  solveHanoi_fuel d2 n from to auxiliary st =
  solveHanoi_fuel d1 n from to auxiliary st.
Proof.
  intros Hle H. induction Hle as [|d2 Hle IH]; [reflexivity|].
  rewrite solveHanoi_fuel_step; [exact IH|]. rewrite IH. exact H.
Qed.

Lemma Qceiling_pred (n : number) : (Qceiling (n - 1) <= Qceiling n - 1)%Z.
Proof.
  rewrite <- (Qceiling_Z (Qceiling n - 1)).
  apply Qceiling_resp_le.
  rewrite <- inject_Z_pred.
  apply Qplus_le_l, Qle_ceiling.
Qed.

Lemma Qceiling_pos (n : number) : ~ n <= 0 -> (0 < Qceiling n)%Z.
Proof.
  intros H. apply Qnot_le_lt in H.
  rewrite Zlt_Qlt. eapply Qlt_le_trans; [exact H | apply Qle_ceiling].
Qed.

Lemma Qle_bool_false (x y : number) : Qle_bool x y = false -> ~ x <= y.
Proof.
  intros E L. apply Qle_bool_iff in L. congruence.
Qed.

(** Each nested call lowers the measure, and the recursion is not entered
    when [n <= 0]. *)
Lemma callDepth_decreases (n : number) :
  ~ n <= 0 -> (callDepth (n - 1)%Q < callDepth n)%nat.
Proof.
  intros H. unfold callDepth.
  pose proof (Qceiling_pred n). pose proof (Qceiling_pos n H). lia.
Qed.

Lemma emitMove_finishes (from to : Z) (st : sim) :
  emitMove from to st <> OutOfFuel.
Proof.
  unfold emitMove.
  destruct (nth_error (sim_rods st) (Z.to_nat from)); [|discriminate].
  destruct (_ =? _)%nat; [discriminate|].
  destruct (pop l) as [[d src']|]; [|discriminate].
  destruct (nth_error _ (Z.to_nat to)); discriminate.
Qed.

Lemma solveHanoi_fuel_enough (depth : nat) :
  forall n from to auxiliary st,
    (callDepth n <= depth)%nat ->
    solveHanoi_fuel depth n from to auxiliary st <> OutOfFuel.
Proof.
  induction depth as [|depth IH]; intros n from to auxiliary st Hd.
  - unfold callDepth in Hd. lia.
  - rewrite solveHanoi_fuel_S.
    destruct (Qle_bool n 0) eqn:E0; [discriminate|].
    case_guards from to auxiliary G1 G2; [discriminate|discriminate|].
    destruct (Qeq_bool n 1).
    + pose proof (emitMove_finishes from to st) as Hm.
      destruct (emitMove from to st) as [[st'|]| |]; simpl;
        try discriminate. congruence.
    + assert (Hd' : (callDepth (n - 1)%Q <= depth)%nat).
      { pose proof (callDepth_decreases n (Qle_bool_false _ _ E0)). lia. }
      destruct (solveHanoi_fuel depth (n - 1) from auxiliary to st)
        as [st1| |] eqn:E1; simpl.
      * pose proof (emitMove_finishes from to st1) as Hm.
        destruct (emitMove from to st1) as [[st2|]| |]; simpl;
          try discriminate; [|congruence].
        apply IH. exact Hd'.
      * discriminate.
      * exfalso. exact (IH _ _ _ _ _ Hd' E1).
Qed.

Lemma solveHanoi_fuel_stable (depth : nat) n from to auxiliary st :
  (callDepth n <= depth)%nat ->
  solveHanoi_fuel depth n from to auxiliary st = solveHanoi n from to auxiliary st.
Proof.
  intros H. unfold solveHanoi. apply solveHanoi_fuel_mono; [exact H|].
  apply solveHanoi_fuel_enough. apply Nat.le_refl.
Qed.

Lemma nth_error_in_range {A : Type} (l : list A) (i : nat) :
  (i < List.length l)%nat -> exists x, nth_error l i = Some x.
Proof.
  intros H. destruct (nth_error l i) eqn:E; [eauto|].
  apply nth_error_None in E. lia.
Qed.

Lemma emitMove_total (from to : Z) (st : sim) :
  threeRods st -> (0 <= from <= 2)%Z -> (0 <= to <= 2)%Z ->
  emitMove from to st = Returned None \/
  exists st', emitMove from to st = Returned (Some st') /\ threeRods st'.
Proof.
  unfold threeRods, emitMove. intros H3 Hf Ht.
  destruct (nth_error_in_range (sim_rods st) (Z.to_nat from)) as [src ->];
    [lia|].
  destruct (List.length src =? 0)%nat; [now left|].
  destruct (pop src) as [[d src']|]; [|now left].
  destruct (nth_error_in_range
              (assign (Z.to_nat from) src' (sim_rods st)) (Z.to_nat to))
    as [dst ->]; [rewrite length_assign; lia|].
  right. eexists. split; [reflexivity|]. simpl.
  now rewrite !length_assign.
Qed.

(** With three rods in place no array access can miss, so a call never
    throws, and it hands three rods back. *)
Lemma solveHanoi_fuel_no_throw (depth : nat) :
  forall n from to auxiliary st,
    threeRods st ->
    match solveHanoi_fuel depth n from to auxiliary st with
    | Returned st' => threeRods st'
    | Threw _ => False
    | OutOfFuel => True
    end.
Proof.
  induction depth as [|depth IH]; intros n from to auxiliary st H3;
    [exact I|].
  rewrite solveHanoi_fuel_S.
  destruct (Qle_bool n 0); [exact H3|].
  case_guards from to auxiliary G1 G2; [exact H3|exact H3|].
  destruct (roles_guard _ _ _ G1 G2) as (Hf & Ht & Ha & _).
  destruct (Qeq_bool n 1).
  - destruct (emitMove_total from to st H3 Hf Ht) as [->|(st' & -> & H')];
      simpl; assumption.
  - pose proof (IH (n - 1) from auxiliary to st H3) as P1.
    destruct (solveHanoi_fuel depth (n - 1) from auxiliary to st)
      as [st1| |]; simpl; try exact P1.
    destruct (emitMove_total from to st1 P1 Hf Ht) as [->|(st2 & -> & H2)];
      simpl; [exact P1|].
    apply IH. exact H2.
Qed.

Lemma solveHanoi_returns n from to auxiliary st :
  threeRods st ->
  exists st', solveHanoi n from to auxiliary st = Returned st' /\ threeRods st'.
Proof.
  intros H3. unfold solveHanoi.
  pose proof (solveHanoi_fuel_no_throw (callDepth n) n from to auxiliary st H3)
    as P.
  pose proof (solveHanoi_fuel_enough (callDepth n) n from to auxiliary st
                (Nat.le_refl _)) as Q.
  destruct (solveHanoi_fuel (callDepth n) n from to auxiliary st);
    [eauto | contradiction | congruence].
Qed.

Lemma Qfloor_pred (i : number) : (Qfloor (i - 1) < Qfloor i)%Z.
Proof.
  rewrite Zlt_Qlt.
  apply Qle_lt_trans with (i - 1); [apply Qfloor_le|].
  apply Qlt_le_trans with (inject_Z (Qfloor i + 1) - 1).
  - apply Qplus_lt_l, Qlt_floor.
  - rewrite inject_Z_pred. replace (Qfloor i + 1 - 1)%Z with (Qfloor i) by lia.
    apply Qle_refl.
Qed.

(** The loading loop ends by its own test within [Qfloor i] rounds. *)
Lemma initRods_returns (bound : nat) :
  forall i cfg,
    List.length cfg = 3%nat ->
    (Qfloor i <= Z.of_nat bound)%Z ->
    exists cfg', initRods bound i cfg = Returned cfg' /\
                 List.length cfg' = 3%nat.
Proof.
  induction bound as [|bound IH]; intros i cfg H3 Hb; simpl.
  - destruct (Qle_bool 1 i) eqn:E; [|eauto].
    apply Qle_bool_iff in E. apply Qfloor_resp_le in E.
    change (Qfloor 1) with 1%Z in E. lia.
  - destruct (Qle_bool 1 i) eqn:E; [|eauto].
    destruct cfg as [|rod0 cfg]; [discriminate|]. simpl.
    apply IH; [exact H3|].
    pose proof (Qfloor_pred i). lia.
Qed.

Lemma simulate_returns (x : number) :
  exists st, simulate x = Returned st /\ threeRods st.
Proof.
  unfold simulate.
  destruct (initRods_returns (Z.to_nat (Qfloor x)) x [[]; []; []] eq_refl)
    as (cfg & -> & H3); [lia|]. simpl.
  apply solveHanoi_returns. exact H3.
Qed.

Lemma rangeCheck_false (x : number) :
  Qlt_bool x 1 || Qlt_bool 8 x = false <-> 1 <= x /\ x <= 8.
Proof.
  rewrite orb_false_iff. unfold Qlt_bool. rewrite !negb_false_iff.
  now rewrite !Qle_bool_iff.
Qed.

Lemma generateSolution_returns (x : number) :
  1 <= x -> x <= 8 ->
  exists st,
    simulate x = Returned st /\
    generateSolution x =
      Returned {| numberOfDisks := x;
                  moves := sim_moves st;
                  totalMoves := arrayLength (sim_moves st);
                  source := "cloud_generated";
                  isValid := validateSolution (sim_moves st) x |}.
Proof.
  intros H1 H8. unfold generateSolution.
  rewrite (proj2 (rangeCheck_false x) (conj H1 H8)).
  destruct (simulate_returns x) as (st & E & _).
  exists st. rewrite E. split; reflexivity.
Qed.

(** On a finite first argument [solveHanoi] terminates, whatever the other
    arguments are: with [callDepth n] stack frames every call finishes (it
    returns or throws) and further frames do not change its result; the
    recursion is not entered when [n <= 0] and each nested call lowers
    [callDepth].  Hence [generateSolution] returns a solution on every
    finite input between 1 and 8. *)
Theorem solveHanoi_terminates :
  (forall n from to auxiliary st,
      exists r, r <> OutOfFuel /\
        forall depth, (callDepth n <= depth)%nat ->
          solveHanoi_fuel depth n from to auxiliary st = r) /\
  (forall n depth from to auxiliary st,
      n <= 0 -> solveHanoi_fuel (S depth) n from to auxiliary st = Returned st) /\
  (forall n, ~ n <= 0 -> (callDepth (n - 1)%Q < callDepth n)%nat) /\
  (forall x, 1 <= x -> x <= 8 -> exists sol, generateSolution x = Returned sol).
Proof.
  split; [|split; [|split]].
  - intros n from to auxiliary st.
    exists (solveHanoi n from to auxiliary st). split.
    + apply solveHanoi_fuel_enough, Nat.le_refl.
    + intros depth Hd. now apply solveHanoi_fuel_stable.
  - intros n depth from to auxiliary st Hn. rewrite solveHanoi_fuel_S.
    apply Qle_bool_iff in Hn. now rewrite Hn.
  - exact callDepth_decreases.
  - intros x H1 H8.
    destruct (generateSolution_returns x H1 H8) as (st & _ & E). eauto.
Qed.

(** ** The special values of a disk count *)

(** On a finite count the two embeddings of the solver are the same. *)
Lemma solveHanoiJS_fuel_finite (depth : nat) :
  forall q from to auxiliary st,
    solveHanoiJS_fuel depth (Finite q) from to auxiliary st =
    solveHanoi_fuel depth q from to auxiliary st.
Proof.
  induction depth as [|depth IH]; intros q from to auxiliary st;
    [reflexivity|].
  rewrite solveHanoi_fuel_S. cbn [solveHanoiJS_fuel js_le js_eq js_pred].
  destruct (Qle_bool q 0); [reflexivity|].
  case_guards from to auxiliary G1 G2; [reflexivity|reflexivity|].
  destruct (Qeq_bool q 1); [reflexivity|].
  rewrite IH.
  destruct (solveHanoi_fuel depth (q - 1) from auxiliary to st)
    as [st1| |]; simpl; try reflexivity.
  destruct (emitMove from to st1) as [[st2|]| |]; simpl; try reflexivity.
  apply IH.
Qed.

Lemma initRodsJS_finite (bound : nat) :
  forall q cfg, initRodsJS bound (Finite q) cfg = initRods bound q cfg.
Proof.
  induction bound as [|bound IH]; intros q cfg;
    cbn [initRodsJS initRods js_le js_pred];
    destruct (Qle_bool 1 q); try reflexivity.
  destruct (nth_error cfg 0); [apply IH | reflexivity].
Qed.

(** On a finite count in range, with the stack and the loop rounds that
    [simulate] allows itself, lines 58-73 are the simulation of the rational
    model. *)
Lemma generateSolutionJS_run_finite (q : number) :
  1 <= q -> q <= 8 ->
  generateSolutionJS_run (callDepth q) (Z.to_nat (Qfloor q)) (Finite q) =
  simulate q.
Proof.
  intros H1 H8. unfold generateSolutionJS_run, simulate. cbn [js_lt].
  rewrite (proj2 (rangeCheck_false q) (conj H1 H8)).
  rewrite initRodsJS_finite.
  destruct (initRods (Z.to_nat (Qfloor q)) q [[]; []; []]);
    cbn [bind]; try reflexivity.
  apply solveHanoiJS_fuel_finite.
Qed.



(** ** The range check *)

(** C5 (amended).  [generateSolution(x)] throws the range error exactly when
    [x < 1] or [x > 8]; 0 and 9 are rejected in particular.  The check is
    the first statement, so nothing has been simulated when it throws, and a
    throwing call yields no solution.  Whether [x] is an integer is not
    checked: 1.5 passes the check and a solution comes back. *)
Theorem generateSolution_range_error (x : number) :
  (generateSolution x = Threw (Error rangeMessage) <-> (x < 1 \/ 8 < x)) /\
  generateSolution 0 = Threw (Error rangeMessage) /\
  generateSolution 9 = Threw (Error rangeMessage) /\
  (exists sol, generateSolution (3 # 2) = Returned sol).
Proof.
  split; [|split; [reflexivity|split; [reflexivity|]]].
  - split.
    + intros E.
      destruct (Qlt_le_dec x 1) as [L|L]; [now left|].
      destruct (Qlt_le_dec 8 x) as [G|G]; [now right|].
      destruct (generateSolution_returns x L G) as (st & _ & E').
      rewrite E' in E. discriminate.
    + intros H. unfold generateSolution.
      assert (Hc : Qlt_bool x 1 || Qlt_bool 8 x = true).
      { apply orb_true_iff. rewrite !Qlt_bool_iff. exact H. }
      now rewrite Hc.
  - eexists. vm_compute. reflexivity.
Qed.

(** ** An empty source rod *)

Lemma emitMove_empty (from to : Z) (st : sim) :
  rod from (sim_rods st) = Some [] -> emitMove from to st = Returned None.
Proof.
  unfold rod, emitMove. now intros ->.
Qed.

(** C6 (amended).  When a move is due (the [n == 1] case, or phase 2 after
    phase 1 has returned) and the source rod is empty, the call raises
    nothing and emits nothing: it returns at once with the rods and the move
    list as they stand, and in phase 2 without running phase 3.  The callers
    carry on with that state. *)
Theorem empty_source_returns_silently
    (depth : nat) (n : number) (from to auxiliary : Z) (st : sim) :
  rolesOk from to auxiliary -> ~ n <= 0 ->
  (n == 1 -> rod from (sim_rods st) = Some [] ->
     solveHanoi_fuel (S depth) n from to auxiliary st = Returned st) /\
  (forall st1, ~ n == 1 ->
     solveHanoi_fuel depth (n - 1) from auxiliary to st = Returned st1 ->
     rod from (sim_rods st1) = Some [] ->
     solveHanoi_fuel (S depth) n from to auxiliary st = Returned st1).
Proof.
  intros Hr Hn. destruct (roles_guard_pass _ _ _ Hr) as [G1 G2].
  assert (E0 : Qle_bool n 0 = false).
  { destruct (Qle_bool n 0) eqn:E; [|reflexivity].
    apply Qle_bool_iff in E. contradiction. }
  split.
  - intros H1 Hempty. rewrite solveHanoi_fuel_S, E0, G1, G2.
    apply Qeq_bool_iff in H1. rewrite H1.
    now rewrite (emitMove_empty _ _ _ Hempty).
  - intros st1 H1 Hphase1 Hempty. rewrite solveHanoi_fuel_S, E0, G1, G2.
    destruct (Qeq_bool n 1) eqn:E1;
      [apply Qeq_bool_iff in E1; contradiction|].
    rewrite Hphase1. simpl.
    now rewrite (emitMove_empty _ _ _ Hempty).
Qed.

(** ** One move on three rods *)

Lemma descending_prefix (l r : list number) :
  descending (l ++ r) -> descending l.
Proof.
  unfold descending. induction l as [|x l IH]; simpl; intros H.
  - constructor.
  - inversion H as [|? ? Hs Hf]; subst. constructor; [auto|].
    apply Forall_app in Hf. tauto.
Qed.

Lemma descending_push (l : list number) (d : number) :
  descending l -> Forall (fun x => d < x) l -> descending (push l d).
Proof.
  unfold descending, push. induction l as [|x l IH]; simpl; intros Hs Hf.
  - repeat constructor.
  - inversion Hs as [|? ? Hs' Hx]; subst.
    inversion Hf as [|? ? Hdx Hf']; subst.
    constructor; [auto|].
    apply Forall_app. split; [assumption|]. repeat constructor. assumption.
Qed.

Lemma fitsOn_above (d : number) (dst : list number) :
  Forall (fun x => d < x) dst -> fitsOn d dst = true.
Proof.
  intros Hf. unfold fitsOn. destruct (pop dst) as [[top r]|] eqn:E;
    [|reflexivity].
  apply pop_Some in E. subst dst. unfold push in Hf.
  apply Forall_app in Hf. destruct Hf as [_ Hf].
  inversion Hf; subst. now apply Qlt_bool_iff.
Qed.

Lemma legal_rod (i : Z) (cfg : list (list number)) (r : list number) :
  legal cfg -> rod i cfg = Some r -> descending r.
Proof.
  unfold legal, rod. intros Hl Hr. rewrite Forall_forall in Hl.
  apply Hl. eapply nth_error_In. exact Hr.
Qed.

Section AfterMove.
Variables (f t : Z) (F T : list number) (d : number).
Variable cfg : list (list number).
Hypothesis three : List.length cfg = 3%nat.
Hypothesis f_range : (0 <= f <= 2)%Z.
Hypothesis t_range : (0 <= t <= 2)%Z.
Hypothesis distinct : f <> t.
Hypothesis at_f : rod f cfg = Some (push F d).
Hypothesis at_t : rod t cfg = Some T.

Lemma afterMove_length : List.length (afterMove f t F T d cfg) = 3%nat.
Proof. unfold afterMove. now rewrite !length_assign. Qed.

Lemma afterMove_from : rod f (afterMove f t F T d cfg) = Some F.
Proof.
  unfold rod, afterMove. rewrite nth_error_assign_ne by lia.
  apply nth_error_assign_eq. lia.
Qed.

Lemma afterMove_to : rod t (afterMove f t F T d cfg) = Some (push T d).
Proof.
  unfold rod, afterMove. apply nth_error_assign_eq.
  rewrite length_assign. lia.
Qed.

Lemma afterMove_other (a : Z) :
  (0 <= a)%Z -> a <> f -> a <> t ->
  rod a (afterMove f t F T d cfg) = rod a cfg.
Proof.
  intros Ha Hf Ht. unfold rod, afterMove.
  rewrite !nth_error_assign_ne by lia. reflexivity.
Qed.

Lemma afterMove_legal :
  legal cfg -> Forall (fun x => d < x) T -> legal (afterMove f t F T d cfg).
Proof.
  intros Hl Hab. unfold afterMove. apply Forall_assign.
  - apply Forall_assign; [exact Hl|].
    apply (descending_prefix F [d]). eapply legal_rod; eauto.
  - apply descending_push; [eapply legal_rod; eauto | exact Hab].
Qed.

Lemma afterMove_perm :
  Permutation (List.concat (afterMove f t F T d cfg)) (List.concat cfg).
Proof.
  unfold afterMove.
  destruct (concat_assign (Z.to_nat f) (push F d) F cfg at_f)
    as (rest1 & P1 & P2).
  assert (at_t' : nth_error (assign (Z.to_nat f) F cfg) (Z.to_nat t) = Some T).
  { rewrite nth_error_assign_ne by lia. exact at_t. }
  destruct (concat_assign (Z.to_nat t) T (push T d) _ at_t')
    as (rest2 & P3 & P4).
  rewrite P4, P1. unfold push.
  rewrite <- !app_assoc. simpl.
  rewrite <- Permutation_middle. rewrite <- Permutation_middle.
  apply perm_skip. rewrite <- P3. exact P2.
Qed.

End AfterMove.

Lemma rodIndex_name (i : Z) :
  (0 <= i <= 2)%Z ->
  rodIndex (nth (Z.to_nat i) rodNames EmptyString) = Some (Z.to_nat i).
Proof.
  intros H. assert (C : i = 0%Z \/ i = 1%Z \/ i = 2%Z) by lia.
  destruct C as [->|[->| ->]]; reflexivity.
Qed.

Lemma rodNames_valid (f t : Z) :
  (0 <= f <= 2)%Z -> (0 <= t <= 2)%Z -> f <> t ->
  let a := nth (Z.to_nat f) rodNames EmptyString in
  let b := nth (Z.to_nat t) rodNames EmptyString in
  includes ["A"; "B"; "C"]%string a && includes ["A"; "B"; "C"]%string b &&
  negb (String.eqb a b) = true.
Proof.
  intros Hf Ht Hne.
  assert (Cf : f = 0%Z \/ f = 1%Z \/ f = 2%Z) by lia.
  assert (Ct : t = 0%Z \/ t = 1%Z \/ t = 2%Z) by lia.
  destruct Cf as [->|[->| ->]], Ct as [->|[->| ->]];
    try reflexivity; congruence.
Qed.

(** What [emitMove] does when the source rod is not empty. *)
Lemma emitMove_spec (f t : Z) (F T : list number) (d : number) (st : sim) :
  threeRods st -> (0 <= f <= 2)%Z -> (0 <= t <= 2)%Z -> f <> t ->
  rod f (sim_rods st) = Some (push F d) ->
  rod t (sim_rods st) = Some T ->
  exists m,
    emitMove f t st =
      Returned (Some {| sim_rods := afterMove f t F T d (sim_rods st);
                        sim_moves := push (sim_moves st) m;
                        sim_history :=
                          push (sim_history st)
                               (afterMove f t F T d (sim_rods st)) |}) /\
    from m = nth (Z.to_nat f) rodNames EmptyString /\
    to m = nth (Z.to_nat t) rodNames EmptyString /\
    disk m = d.
Proof.
  unfold threeRods, rod. intros H3 Hf Ht Hne Hsrc Hdst.
  unfold emitMove. rewrite Hsrc.
  replace (List.length (push F d) =? 0)%nat with false
    by (unfold push; rewrite length_app; simpl;
        symmetry; apply Nat.eqb_neq; lia).
  rewrite pop_push.
  rewrite nth_error_assign_ne by lia. rewrite Hdst.
  eexists. split; [reflexivity|]. simpl. auto.
Qed.

Lemma replayMove_afterMove (m : HanoiMove) (f t : Z) (F T : list number)
    (d : number) (cfg : list (list number)) :
  (0 <= f <= 2)%Z -> (0 <= t <= 2)%Z -> f <> t ->
  from m = nth (Z.to_nat f) rodNames EmptyString ->
  to m = nth (Z.to_nat t) rodNames EmptyString ->
  disk m = d ->
  rod f cfg = Some (push F d) -> rod t cfg = Some T ->
  Forall (fun x => d < x) T ->
  replayMove m cfg = inr (afterMove f t F T d cfg).
Proof.
  unfold rod. intros Hf Ht Hne Hfrom Hto Hd Hsrc Hdst Hab.
  unfold replayMove. rewrite Hfrom, Hto, !rodIndex_name by assumption.
  rewrite Hsrc, pop_push, Hd, Qeq_bool_refl. simpl.
  rewrite nth_error_assign_ne by lia. rewrite Hdst.
  now rewrite fitsOn_above.
Qed.

Lemma isValidMove_emitted (m : HanoiMove) (f t : Z) :
  (0 <= f <= 2)%Z -> (0 <= t <= 2)%Z -> f <> t ->
  from m = nth (Z.to_nat f) rodNames EmptyString ->
  to m = nth (Z.to_nat t) rodNames EmptyString ->
  0 < disk m ->
  isValidMove m = true.
Proof.
  intros Hf Ht Hne Hfrom Hto Hd. unfold isValidMove.
  rewrite Hfrom, Hto. rewrite (rodNames_valid f t Hf Ht Hne).
  now apply Qlt_bool_iff.
Qed.

(** ** Moving a tower *)

Lemma tower_S (k : nat) : tower (S k) = diskOf (S k) :: tower k.
Proof. reflexivity. Qed.

Lemma diskOf_lt (j k : nat) : (j < k)%nat -> diskOf j < diskOf k.
Proof. intros H. unfold diskOf. rewrite <- Zlt_Qlt. lia. Qed.

Lemma diskOf_pred (k : nat) : diskOf (S k) - 1 = diskOf k.
Proof.
  unfold diskOf. rewrite inject_Z_pred. f_equal. lia.
Qed.

Lemma above_weaken (j k : nat) (l : list number) :
  (j <= k)%nat ->
  Forall (fun x => diskOf k < x) l -> Forall (fun x => diskOf j < x) l.
Proof.
  intros Hjk. apply Forall_impl. intros x Hx.
  destruct (Nat.eq_dec j k) as [->|Hne]; [exact Hx|].
  eapply Qlt_trans; [apply (diskOf_lt j k); lia | exact Hx].
Qed.

Lemma replay_app (ms1 ms2 : list HanoiMove) (cfg cfg1 : list (list number)) :
  replay ms1 cfg = inr cfg1 -> replay (ms1 ++ ms2) cfg = replay ms2 cfg1.
Proof.
  revert cfg. induction ms1 as [|m ms1 IH]; simpl; intros cfg H.
  - now inversion H.
  - destruct (replayMove m cfg) as [e|cfg']; [discriminate|]. now apply IH.
Qed.

(** A single disk moved by [emitMove], in the vocabulary of [moved]. *)
Lemma emitMove_moved (k : nat) (F T A : list number) (f t a : Z) (st : sim) :
  rolesOk f t a -> threeRods st -> legal (sim_rods st) ->
  rod f (sim_rods st) = Some (push F (diskOf (S k))) ->
  rod t (sim_rods st) = Some T ->
  rod a (sim_rods st) = Some A ->
  Forall (fun x => diskOf (S k) < x) T ->
  exists st' m,
    emitMove f t st = Returned (Some st') /\
    sim_rods st' = afterMove f t F T (diskOf (S k)) (sim_rods st) /\
    sim_moves st' = push (sim_moves st) m /\
    sim_history st' = push (sim_history st) (sim_rods st') /\
    rod f (sim_rods st') = Some F /\
    rod t (sim_rods st') = Some (push T (diskOf (S k))) /\
    rod a (sim_rods st') = Some A /\
    threeRods st' /\ legal (sim_rods st') /\
    Permutation (List.concat (sim_rods st')) (List.concat (sim_rods st)) /\
    replayMove m (sim_rods st) = inr (sim_rods st') /\
    isValidMove m = true.
Proof.
  intros (Hf & Ht & Ha & Hft & Hfa & Hta) H3 Hl Hsrc Hdst Haux Hab.
  destruct (emitMove_spec f t F T (diskOf (S k)) st H3 Hf Ht Hft Hsrc Hdst)
    as (m & E & Hfrom & Hto & Hd).
  eexists. exists m. split; [exact E|]. simpl.
  split; [reflexivity|]. split; [reflexivity|]. split; [reflexivity|].
  split; [now apply afterMove_from|].
  split; [now apply afterMove_to|].
  split; [rewrite afterMove_other; auto; lia|].
  split; [now apply afterMove_length|].
  split; [eapply afterMove_legal; eauto|].
  split; [eapply afterMove_perm; eauto|].
  split; [now apply replayMove_afterMove|].
  apply (isValidMove_emitted m f t Hf Ht Hft Hfrom Hto).
  rewrite Hd. apply (diskOf_lt 0 (S k)). lia.
Qed.

Lemma last_cons {A : Type} (r : list A) :
  forall c d : A, last (c :: r) d = last r c.
Proof.
  induction r as [|y r IH]; intros c d; [reflexivity|].
  change (last (c :: y :: r) d) with (last (y :: r) d).
  now rewrite (IH y d), (IH y c).
Qed.

Lemma last_app_cons {A : Type} (l r : list A) (c d : A) :
  last (l ++ c :: r) d = last r c.
Proof.
  induction l as [|x l IH]; simpl; [apply last_cons|].
  rewrite <- IH. destruct (l ++ c :: r) eqn:E; [|reflexivity].
  destruct l; discriminate.
Qed.

Lemma rolesOk_phase1 (f t a : Z) : rolesOk f t a -> rolesOk f a t.
Proof. unfold rolesOk. lia. Qed.

Lemma rolesOk_phase3 (f t a : Z) : rolesOk f t a -> rolesOk a t f.
Proof. unfold rolesOk. lia. Qed.

Lemma diskOf_positive (k : nat) : Qle_bool (diskOf (S k)) 0 = false.
Proof.
  unfold diskOf. change 0 with (inject_Z 0). rewrite Qle_bool_inject.
  apply Z.leb_gt. lia.
Qed.

Lemma diskOf_not_one (k : nat) : Qeq_bool (diskOf (S (S k))) 1 = false.
Proof.
  unfold diskOf. change 1 with (inject_Z 1). rewrite Qeq_bool_inject.
  apply Z.eqb_neq. lia.
Qed.

(** The solver on a tower.  Rod [f] carries the tower of [k] disks on top
    of [F]; every other disk in play is larger than [k].  Then the call
    returns, the tower sits on rod [t], every configuration on the way is
    legal and holds the same disks, and the emitted moves replay to the
    final configuration. *)
Lemma solveHanoi_tower (k : nat) :
  forall depth f t a st F T A,
    (k < depth)%nat ->
    rolesOk f t a -> threeRods st -> legal (sim_rods st) ->
    rod f (sim_rods st) = Some (F ++ tower k) ->
    rod t (sim_rods st) = Some T ->
    rod a (sim_rods st) = Some A ->
    Forall (fun x => diskOf k < x) F ->
    Forall (fun x => diskOf k < x) T ->
    Forall (fun x => diskOf k < x) A ->
    exists st' ms hs,
      solveHanoi_fuel depth (diskOf k) f t a st = Returned st' /\
      moved k F T A f t a st st' ms hs.
Proof.
  induction k as [|k IH];
    intros depth f t a st F T A Hd Hr H3 Hl Hf Ht Ha HF HT HA;
    (destruct depth as [|depth]; [lia|]); rewrite solveHanoi_fuel_S.
  - change (Qle_bool (diskOf 0) 0) with true. cbv iota.
    exists st, [], []. split; [reflexivity|].
    simpl in Hf. rewrite app_nil_r in Hf.
    constructor; simpl; rewrite ?app_nil_r; auto.
  - rewrite diskOf_positive.
    destruct (roles_guard_pass _ _ _ Hr) as [G1 G2]. rewrite G1, G2.
    destruct k as [|k].
    + change (Qeq_bool (diskOf 1) 1) with true. cbv iota.
      destruct (emitMove_moved 0 F T A f t a st Hr H3 Hl Hf Ht Ha HT)
        as (st' & m & E & Hrods & Hmoves & Hhist & R1 & R2 & R3 & H3' & Hl'
            & Hp & Hrep & Hv).
      rewrite E. simpl. exists st', [m], [sim_rods st'].
      split; [reflexivity|].
      constructor; simpl; auto.
      * simpl. rewrite Hrep. reflexivity.
      * now rewrite Hv.
    + rewrite diskOf_not_one, diskOf_pred.
      set (d := diskOf (S (S k))) in *.
      assert (Hf' : rod f (sim_rods st) = Some (push F d ++ tower (S k))).
      { rewrite Hf. rewrite (tower_S (S k)). unfold push.
        now rewrite <- app_assoc. }
      assert (HF1 : Forall (fun x => diskOf (S k) < x) (push F d)).
      { apply Forall_app. split.
        - apply (above_weaken _ (S (S k))); [lia | exact HF].
        - repeat constructor. apply diskOf_lt. lia. }
      assert (HT1 : Forall (fun x => diskOf (S k) < x) T)
        by (apply (above_weaken _ (S (S k))); [lia | exact HT]).
      assert (HA1 : Forall (fun x => diskOf (S k) < x) A)
        by (apply (above_weaken _ (S (S k))); [lia | exact HA]).
      (* phase 1 *)
      destruct (IH depth f a t st (push F d) A T ltac:(lia)
                  (rolesOk_phase1 _ _ _ Hr) H3 Hl Hf' Ha Ht HF1 HA1 HT1)
        as (st1 & ms1 & hs1 & E1 & M1).
      rewrite E1. simpl.
      (* phase 2 *)
      destruct (emitMove_moved (S k) F T (A ++ tower (S k)) f t a st1 Hr
                  (mv_three _ _ _ _ _ _ _ _ _ _ _ M1)
                  (mv_legal _ _ _ _ _ _ _ _ _ _ _ M1)
                  (mv_from _ _ _ _ _ _ _ _ _ _ _ M1)
                  (mv_aux _ _ _ _ _ _ _ _ _ _ _ M1)
                  (mv_to _ _ _ _ _ _ _ _ _ _ _ M1) HT)
        as (st2 & m & E2 & Hrods & Hmoves & Hhist & R1 & R2 & R3 & H32 & Hl2
            & Hp2 & Hrep & Hv).
      rewrite E2. simpl.
      (* phase 3 *)
      assert (HT3 : Forall (fun x => diskOf (S k) < x) (push T d)).
      { apply Forall_app. split; [exact HT1|].
        repeat constructor. apply diskOf_lt. lia. }
      assert (HF3 : Forall (fun x => diskOf (S k) < x) F)
        by (apply (above_weaken _ (S (S k))); [lia | exact HF]).
      destruct (IH depth a t f st2 A (push T d) F ltac:(lia)
                  (rolesOk_phase3 _ _ _ Hr) H32 Hl2 R3 R2 R1 HA1 HT3 HF3)
        as (st3 & ms3 & hs3 & E3 & M3).
      exists st3, (ms1 ++ m :: ms3), (hs1 ++ sim_rods st2 :: hs3).
      split; [exact E3|].
      destruct M1 as [a1 b1 c1 d1 e1 p1 m1 h1 n1 s1 t1 l1 q1 z1 r1 v1].
      destruct M3 as [a3 b3 c3 d3 e3 p3 m3 h3 n3 s3 t3 l3 q3 z3 r3 v3].
      constructor.
      * exact c3.
      * rewrite b3. rewrite (tower_S (S k)). unfold push.
        now rewrite <- app_assoc.
      * exact a3.
      * exact d3.
      * exact e3.
      * rewrite p3, Hp2. exact p1.
      * rewrite m3, Hmoves, m1. unfold push. now rewrite <- !app_assoc.
      * rewrite h3, Hhist, h1. unfold push. now rewrite <- !app_assoc.
      * rewrite length_app.
        change (List.length (m :: ms3)) with (S (List.length ms3)).
        rewrite (Nat.pow_succ_r' 2 (S k)). lia.
      * rewrite !length_app. simpl. lia.
      * apply Forall_app. split; [exact t1|]. constructor; [exact H32|exact t3].
      * apply Forall_app. split; [exact l1|]. constructor; [exact Hl2|exact l3].
      * apply Forall_app. split; [exact q1|]. constructor.
        -- rewrite Hp2. exact p1.
        -- eapply Forall_impl; [|exact q3]. intros h Hh. simpl in Hh.
           rewrite Hh, Hp2. exact p1.
      * rewrite last_app_cons. exact z3.
      * rewrite (replay_app _ _ _ _ r1). simpl. rewrite Hrep. exact r3.
      * rewrite forallb_app. simpl. now rewrite v1, Hv, v3.
Qed.

(** ** The run inside [generateSolution] *)

Lemma tower_below (k j : nat) :
  (k < j)%nat -> Forall (fun x => x < diskOf j) (tower k).
Proof.
  induction k as [|k IH]; intros H; [constructor|].
  rewrite tower_S. constructor.
  - apply diskOf_lt. exact H.
  - apply IH. lia.
Qed.

Lemma tower_descending (k : nat) : descending (tower k).
Proof.
  unfold descending. induction k as [|k IH]; [constructor|].
  rewrite tower_S. constructor.
  - exact IH.
  - apply tower_below. lia.
Qed.

(** The loading loop pushes [k], [k - 1], ..., 1 onto rod 0. *)
Lemma initRods_tower (k : nat) :
  forall bound F r1 r2,
    (k <= bound)%nat ->
    initRods bound (diskOf k) [F; r1; r2] = Returned [F ++ tower k; r1; r2].
Proof.
  induction k as [|k IH]; intros bound F r1 r2 Hb.
  - destruct bound; simpl; now rewrite app_nil_r.
  - destruct bound as [|bound]; [lia|]. simpl initRods.
    replace (Qle_bool 1 (diskOf (S k))) with true.
    + rewrite diskOf_pred, IH by lia. unfold push.
      now rewrite <- app_assoc.
    + symmetry. unfold diskOf. change 1 with (inject_Z 1).
      rewrite Qle_bool_inject. apply Z.leb_le. lia.
Qed.

Lemma callDepth_diskOf (k : nat) : callDepth (diskOf k) = S k.
Proof.
  unfold callDepth, diskOf. rewrite Qceiling_Z. now rewrite Nat2Z.id.
Qed.

Lemma simulate_tower (k : nat) :
  exists st ms hs,
    simulate (diskOf k) = Returned st /\
    moved k [] [] [] 0 2 1 (initialSim k) st ms hs /\
    sim_rods st = solvedRods k /\
    sim_moves st = ms /\
    sim_history st = initialRods k :: hs.
Proof.
  unfold simulate.
  replace (Z.to_nat (Qfloor (diskOf k))) with k
    by (unfold diskOf; rewrite Qfloor_Z; now rewrite Nat2Z.id).
  rewrite (initRods_tower k k [] [] [] (Nat.le_refl k)). simpl app.
  change (bind (Returned [tower k; []; []]) ?g) with (g [tower k; []; []]).
  cbv beta. unfold solveHanoi. rewrite callDepth_diskOf.
  assert (Hr : rolesOk 0 2 1) by (unfold rolesOk; lia).
  assert (Hl : legal (sim_rods (initialSim k)))
    by (repeat constructor; apply tower_descending).
  destruct (solveHanoi_tower k (S k) 0 2 1 (initialSim k) [] [] []
              (Nat.lt_succ_diag_r k) Hr eq_refl Hl eq_refl eq_refl eq_refl
              (Forall_nil _) (Forall_nil _) (Forall_nil _))
    as (st & ms & hs & E & M).
  exists st, ms, hs. split; [exact E|]. split; [exact M|].
  destruct M as [a1 b1 c1 d1 e1 p1 m1 h1 n1 s1 t1 l1 q1 z1 r1 v1].
  split; [|split; assumption].
  unfold threeRods in d1. unfold rod in a1, b1, c1.
  destruct (sim_rods st) as [|x0 [|x1 [|x2 [|]]]]; try discriminate.
  simpl in a1, b1, c1. unfold solvedRods. congruence.
Qed.

Lemma inject_Z_diskOf (n : Z) : (0 <= n)%Z -> inject_Z n = diskOf (Z.to_nat n).
Proof. intros H. unfold diskOf. now rewrite Z2Nat.id. Qed.

Lemma in_range (n : Z) : (1 <= n <= 8)%Z -> 1 <= inject_Z n /\ inject_Z n <= 8.
Proof.
  intros [H1 H8]. change 1 with (inject_Z 1). change 8 with (inject_Z 8).
  rewrite <- !Zle_Qle. lia.
Qed.

(** Everything the following theorems need about a run on [n] disks. *)
Lemma generateSolution_tower (n : Z) :
  (1 <= n <= 8)%Z ->
  exists st ms hs,
    simulate (inject_Z n) = Returned st /\
    generateSolution (inject_Z n) =
      Returned {| numberOfDisks := inject_Z n;
                  moves := ms;
                  totalMoves := arrayLength ms;
                  source := "cloud_generated";
                  isValid := validateSolution ms (inject_Z n) |} /\
    moved (Z.to_nat n) [] [] [] 0 2 1 (initialSim (Z.to_nat n)) st ms hs /\
    sim_rods st = solvedRods (Z.to_nat n) /\
    sim_moves st = ms /\
    sim_history st = initialRods (Z.to_nat n) :: hs.
Proof.
  intros Hn. destruct (in_range n Hn) as [H1 H8].
  destruct (generateSolution_returns _ H1 H8) as (st & E & G).
  destruct (simulate_tower (Z.to_nat n)) as (st' & ms & hs & E' & M & R & Hm & Hh).
  rewrite <- inject_Z_diskOf in E' by lia.
  assert (st' = st) by congruence. subst st'.
  exists st, ms, hs. rewrite G, Hm. auto 10.
Qed.

Lemma moves_count (n : Z) (ms : list HanoiMove) :
  (0 <= n)%Z -> S (List.length ms) = (2 ^ Z.to_nat n)%nat ->
  Z.of_nat (List.length ms) = (2 ^ n - 1)%Z.
Proof.
  intros Hn H. apply (f_equal Z.of_nat) in H.
  rewrite Nat2Z.inj_pow, Z2Nat.id in H by lia.
  change (Z.of_nat 2) with 2%Z in H. lia.
Qed.

(** C1.  For every integer [n] from 1 to 8, [generateSolution(n)] returns a
    solution whose move list has exactly [2^n - 1] entries and whose
    [totalMoves] is the length of that list. *)
Theorem generateSolution_move_count (n : Z) :
  (1 <= n <= 8)%Z ->
  exists sol,
    generateSolution (inject_Z n) = Returned sol /\
    Z.of_nat (List.length (moves sol)) = (2 ^ n - 1)%Z /\
    totalMoves sol = arrayLength (moves sol).
Proof.
  intros Hn.
  destruct (generateSolution_tower n Hn) as (st & ms & hs & _ & G & M & _).
  eexists. split; [exact G|]. simpl. split; [|reflexivity].
  apply moves_count; [lia|]. exact (mv_count _ _ _ _ _ _ _ _ _ _ _ M).
Qed.

(** C2.  For every integer [n] from 1 to 8, replaying the moves of
    [generateSolution(n)] in order, from rod 0 holding [n..1] bottom to top
    and rods 1 and 2 empty, meets no error (no move from an empty rod, no
    disk put on a smaller one, and each move carries the disk it names) and
    ends with rods 0 and 1 empty and rod 2, rod C, holding [n..1] bottom to
    top. *)
Theorem generateSolution_replays (n : Z) :
  (1 <= n <= 8)%Z ->
  exists sol,
    generateSolution (inject_Z n) = Returned sol /\
    replay (moves sol) [tower (Z.to_nat n); []; []] =
      inr [[]; []; tower (Z.to_nat n)].
Proof.
  intros Hn.
  destruct (generateSolution_tower n Hn) as (st & ms & hs & _ & G & M & R & _).
  eexists. split; [exact G|]. simpl.
  pose proof (mv_replay _ _ _ _ _ _ _ _ _ _ _ M) as P.
  rewrite R in P. exact P.
Qed.

Lemma count_as_number (n : Z) (ms : list HanoiMove) :
  (0 <= n)%Z -> Z.of_nat (List.length ms) = (2 ^ n - 1)%Z ->
  arrayLength ms == Qpower 2 n - 1.
Proof.
  intros Hn H. unfold arrayLength. rewrite H.
  unfold Z.sub. rewrite inject_Z_plus, inject_Z_opp.
  rewrite (Zpower_Qpower 2 n Hn). reflexivity.
Qed.

(** C3.  For every integer [n] from 1 to 8, the [isValid] field of the
    solution returned by [generateSolution(n)] is [true]. *)
Theorem generateSolution_isValid (n : Z) :
  (1 <= n <= 8)%Z ->
  exists sol,
    generateSolution (inject_Z n) = Returned sol /\ isValid sol = true.
Proof.
  intros Hn.
  destruct (generateSolution_tower n Hn) as (st & ms & hs & _ & G & M & _).
  eexists. split; [exact G|]. simpl.
  rewrite validateSolution_integer. apply andb_true_iff. split.
  - apply Qeq_bool_iff.
    apply count_as_number; [lia|]. apply moves_count; [lia|].
    exact (mv_count _ _ _ _ _ _ _ _ _ _ _ M).
  - exact (mv_valid _ _ _ _ _ _ _ _ _ _ _ M).
Qed.

(** C7.  For every integer [n] from 1 to 8, every rod configuration of the
    simulation inside [generateSolution(n)], from the loaded start through
    the one after each move, has three rods, each strictly decreasing from
    bottom to top (so each disk was put on an empty rod or on a strictly
    larger disk), and holds across its rods exactly the disks [1..n], each
    once.  There is one configuration per move besides the start. *)
Theorem simulation_invariant (n : Z) :
  (1 <= n <= 8)%Z ->
  exists st sol,
    simulate (inject_Z n) = Returned st /\
    generateSolution (inject_Z n) = Returned sol /\
    moves sol = sim_moves st /\
    List.length (sim_history st) = S (List.length (sim_moves st)) /\
    hd [] (sim_history st) = [tower (Z.to_nat n); []; []] /\
    last (sim_history st) [] = sim_rods st /\
    Forall (fun cfg =>
              List.length cfg = 3%nat /\
              legal cfg /\
              Permutation (List.concat cfg) (tower (Z.to_nat n)))
           (sim_history st).
Proof.
  intros Hn.
  destruct (generateSolution_tower n Hn)
    as (st & ms & hs & E & G & M & R & Hm & Hh).
  destruct M as [a1 b1 c1 d1 e1 p1 m1 h1 n1 s1 t1 l1 q1 z1 r1 v1].
  simpl in *.
  assert (C0 : List.concat (initialRods (Z.to_nat n)) = tower (Z.to_nat n)).
  { unfold initialRods. simpl. now rewrite app_nil_r. }
  exists st. eexists. split; [exact E|]. split; [exact G|]. simpl.
  split; [now symmetry|]. rewrite Hh, Hm. simpl List.length.
  split; [now rewrite s1|]. split; [reflexivity|].
  split.
  - rewrite <- z1. destruct hs as [|h hs]; [reflexivity|].
    change (initialRods (Z.to_nat n) :: h :: hs)
      with ([] ++ initialRods (Z.to_nat n) :: h :: hs).
    now rewrite !last_app_cons.
  - constructor.
    + split; [reflexivity|]. split.
      * repeat constructor. apply tower_descending.
      * now rewrite C0.
    + rewrite Forall_forall in *. intros h Hin.
      split; [auto|]. split; [auto|]. rewrite <- C0. auto.
Qed.

(** ** What every call does, on any state *)

Lemma Qceiling_minus_1 (n : Q) : Qceiling (n - 1) = (Qceiling n - 1)%Z.
Proof.
  apply Z.le_antisymm; [apply Qceiling_pred|].
  assert (H : (Qceiling n <= Qceiling (n - 1) + 1)%Z).
  { rewrite <- (Qceiling_Z (Qceiling (n - 1) + 1)).
    apply Qceiling_resp_le.
    rewrite inject_Z_plus.
    setoid_replace n with ((n - 1) + 1) at 1 by ring.
    apply Qplus_le_l, Qle_ceiling. }
  lia.
Qed.

Lemma levels_pred (n : number) : ~ n <= 0 -> levels n = S (levels (n - 1)).
Proof.
  intros H. unfold levels. rewrite Qceiling_minus_1.
  pose proof (Qceiling_pos n H). lia.
Qed.

Lemma levels_one (n : number) : n == 1 -> levels n = 1%nat.
Proof.
  intros H. unfold levels. rewrite (Qceiling_comp _ _ H). reflexivity.
Qed.

Lemma numberToString_next (count : nat) :
  numberToString (inject_Z (Z.of_nat count) + 1) = decimal (S count).
Proof.
  unfold numberToString, decimal.
  replace (inject_Z (Z.of_nat count) + 1) with (inject_Z (Z.of_nat (S count))).
  - now rewrite integerValue_inject.
  - unfold Qplus, inject_Z. simpl. f_equal. lia.
Qed.

Lemma moveRecord_id (count : nat) (f t : Z) (d : number) :
  id (moveRecord count f t d) = moveId (S count).
Proof.
  unfold moveRecord, moveId. simpl. now rewrite numberToString_next.
Qed.

Lemma rodNames_In (i : Z) :
  (0 <= i <= 2)%Z -> In (nth (Z.to_nat i) rodNames EmptyString) rodNames.
Proof.
  intros H. assert (C : i = 0%Z \/ i = 1%Z \/ i = 2%Z) by lia.
  destruct C as [->|[->| ->]]; simpl; auto.
Qed.

Lemma rodNames_distinct (f t : Z) :
  (0 <= f <= 2)%Z -> (0 <= t <= 2)%Z -> f <> t ->
  nth (Z.to_nat f) rodNames EmptyString <> nth (Z.to_nat t) rodNames EmptyString.
Proof.
  intros Hf Ht Hne.
  assert (Cf : f = 0%Z \/ f = 1%Z \/ f = 2%Z) by lia.
  assert (Ct : t = 0%Z \/ t = 1%Z \/ t = 2%Z) by lia.
  destruct Cf as [->|[->| ->]], Ct as [->|[->| ->]];
    try congruence; simpl; discriminate.
Qed.

Lemma moveRecord_named (count : nat) (f t : Z) (d : number) :
  (0 <= f <= 2)%Z -> (0 <= t <= 2)%Z -> f <> t ->
  rodNamed (moveRecord count f t d).
Proof.
  intros Hf Ht Hne. unfold rodNamed. simpl.
  split; [now apply rodNames_In|].
  split; [now apply rodNames_In|now apply rodNames_distinct].
Qed.

(** The only way [emitMove] changes the state. *)
Lemma emitMove_Some (f t : Z) (st st' : sim) :
  (0 <= f <= 2)%Z -> (0 <= t <= 2)%Z -> f <> t ->
  emitMove f t st = Returned (Some st') ->
  exists F T d,
    rod f (sim_rods st) = Some (push F d) /\
    rod t (sim_rods st) = Some T /\
    st' = {| sim_rods := afterMove f t F T d (sim_rods st);
             sim_moves :=
               push (sim_moves st)
                    (moveRecord (List.length (sim_moves st)) f t d);
             sim_history :=
               push (sim_history st) (afterMove f t F T d (sim_rods st)) |}.
Proof.
  intros Hf Ht Hne. unfold emitMove, rod.
  destruct (nth_error (sim_rods st) (Z.to_nat f)) as [src|] eqn:Es;
    [|discriminate].
  destruct (List.length src =? 0)%nat; [discriminate|].
  destruct (pop src) as [[d src']|] eqn:Ep; [|discriminate].
  apply pop_Some in Ep. subst src.
  destruct (nth_error (assign (Z.to_nat f) src' (sim_rods st)) (Z.to_nat t))
    as [dst|] eqn:Ed; [|discriminate].
  rewrite nth_error_assign_ne in Ed by lia.
  intros H. inversion H; subst; clear H.
  exists src', dst, d. repeat split; assumption.
Qed.

(** [emitMove] returns no new state only when the source rod is empty. *)
Lemma emitMove_None (f t : Z) (st : sim) :
  emitMove f t st = Returned None ->
  rod f (sim_rods st) = Some [].
Proof.
  unfold emitMove, rod.
  destruct (nth_error (sim_rods st) (Z.to_nat f)) as [src|]; [|discriminate].
  destruct src as [|x src]; [reflexivity|]. simpl.
  destruct (pop src) as [[y r]|];
    destruct (nth_error _ (Z.to_nat t)); discriminate.
Qed.

Lemma afterMove_perm_any (f t : Z) (F T : list number) (d : number)
    (cfg : list (list number)) :
  (0 <= f)%Z -> (0 <= t)%Z -> f <> t ->
  rod f cfg = Some (push F d) -> rod t cfg = Some T ->
  Permutation (List.concat (afterMove f t F T d cfg)) (List.concat cfg).
Proof.
  intros Hf Ht Hne at_f at_t. unfold afterMove.
  destruct (concat_assign (Z.to_nat f) (push F d) F cfg at_f)
    as (rest1 & P1 & P2).
  assert (at_t' : nth_error (assign (Z.to_nat f) F cfg) (Z.to_nat t) = Some T).
  { rewrite nth_error_assign_ne by lia. exact at_t. }
  destruct (concat_assign (Z.to_nat t) T (push T d) _ at_t')
    as (rest2 & P3 & P4).
  rewrite P4, P1. unfold push.
  rewrite <- !app_assoc. simpl.
  rewrite <- Permutation_middle. rewrite <- Permutation_middle.
  apply perm_skip. rewrite <- P3. exact P2.
Qed.

Lemma rod_In_concat (i : Z) (cfg : list (list number)) (r : list number)
    (d : number) :
  rod i cfg = Some r -> In d r -> In d (List.concat cfg).
Proof.
  unfold rod. intros Hr Hd. apply in_concat. exists r. split; [|exact Hd].
  eapply nth_error_In. exact Hr.
Qed.

Lemma performMove_record (count : nat) (f t : Z) (F T : list number)
    (d : number) (cfg : list (list number)) :
  (0 <= f <= 2)%Z -> (0 <= t <= 2)%Z -> f <> t ->
  rod f cfg = Some (push F d) -> rod t cfg = Some T ->
  performMove (moveRecord count f t d) cfg = Some (afterMove f t F T d cfg).
Proof.
  unfold rod. intros Hf Ht Hne Hsrc Hdst.
  unfold performMove, moveRecord. cbn [from to disk].
  rewrite !rodIndex_name by assumption.
  rewrite Hsrc, pop_push, Qeq_bool_refl.
  rewrite nth_error_assign_ne by lia. now rewrite Hdst.
Qed.

Lemma performMoves_app (ms1 ms2 : list HanoiMove) (cfg cfg1 : list (list number)) :
  performMoves ms1 cfg = Some cfg1 ->
  performMoves (ms1 ++ ms2) cfg = performMoves ms2 cfg1.
Proof.
  revert cfg. induction ms1 as [|m ms1 IH]; simpl; intros cfg H.
  - now inversion H.
  - destruct (performMove m cfg) as [cfg'|]; [|discriminate]. now apply IH.
Qed.

Lemma traced_refl (st : sim) : traced st st [].
Proof.
  constructor; simpl; auto.
  - now rewrite app_nil_r.
  - exists []. now rewrite app_nil_r.
Qed.

Lemma traced_emit (f t : Z) (st st' : sim) :
  (0 <= f <= 2)%Z -> (0 <= t <= 2)%Z -> f <> t ->
  emitMove f t st = Returned (Some st') ->
  exists m, traced st st' [m].
Proof.
  intros Hf Ht Hne E.
  destruct (emitMove_Some f t st st' Hf Ht Hne E) as (F & T & d & Rf & Rt & ->).
  eexists. constructor; cbn [sim_moves sim_rods sim_history].
  - reflexivity.
  - eexists [_]. split; reflexivity.
  - unfold afterMove. now rewrite !length_assign.
  - apply afterMove_perm_any; auto; lia.
  - constructor; [|constructor]. now apply moveRecord_named.
  - constructor; [|constructor]. cbn [disk moveRecord].
    apply (rod_In_concat f _ _ _ Rf). unfold push. apply in_or_app.
    right. now left.
  - cbn [map List.length seq]. now rewrite moveRecord_id.
  - cbn [performMoves].
    now rewrite (performMove_record _ f t F T d _ Hf Ht Hne Rf Rt).
Qed.

Lemma traced_trans (st st1 st2 : sim) (ms1 ms2 : list HanoiMove) :
  traced st st1 ms1 -> traced st1 st2 ms2 -> traced st st2 (ms1 ++ ms2).
Proof.
  intros [m1 (hs1 & h1 & l1) r1 p1 n1 d1 i1 f1]
         [m2 (hs2 & h2 & l2) r2 p2 n2 d2 i2 f2].
  constructor.
  - rewrite m2, m1. now rewrite app_assoc.
  - exists (hs1 ++ hs2). split.
    + rewrite h2, h1. now rewrite app_assoc.
    + rewrite !length_app. lia.
  - congruence.
  - now rewrite p2.
  - apply Forall_app. now split.
  - apply Forall_app. split; [exact d1|].
    eapply Forall_impl; [|exact d2]. intros m Hm. simpl in Hm.
    eapply Permutation_in; [exact p1 | exact Hm].
  - rewrite map_app, i1, i2, m1, !length_app.
    rewrite seq_app, map_app. simpl. f_equal.
  - rewrite (performMoves_app _ _ _ _ f1). exact f2.
Qed.

Lemma pow2_pos (k : nat) : (1 <= 2 ^ k)%nat.
Proof.
  induction k as [|k IH]; simpl; lia.
Qed.

(** The general statement: a returning call has only appended moves, each
    naming two different rods and a disk that was on the rods, numbered
    on from the moves already present; it has kept every disk; the moves
    carried out on the old rods give the new rods; and it has emitted fewer
    than [2 ^ levels n] moves. *)
Lemma solveHanoi_fuel_traced (depth : nat) :
  forall n f t a st st',
    solveHanoi_fuel depth n f t a st = Returned st' ->
    exists ms, traced st st' ms /\ (S (List.length ms) <= 2 ^ levels n)%nat.
Proof.
  induction depth as [|depth IH]; intros n f t a st st' H; [discriminate|].
  rewrite solveHanoi_fuel_S in H.
  destruct (Qle_bool n 0) eqn:E0.
  { inversion H; subst. exists []. split; [apply traced_refl|apply pow2_pos]. }
  case_guards f t a G1 G2;
    try (inversion H; subst; exists [];
         split; [apply traced_refl|apply pow2_pos]).
  destruct (roles_guard _ _ _ G1 G2) as (Hf & Ht & Ha & Hft & Hfa & Hta).
  apply Qle_bool_false in E0.
  destruct (Qeq_bool n 1) eqn:E1.
  - apply Qeq_bool_iff in E1.
    destruct (emitMove f t st) as [[st2|]| |] eqn:Em; simpl in H;
      try discriminate; inversion H; subst.
    + destruct (traced_emit f t st st' Hf Ht Hft Em) as (m & Tr).
      exists [m]. split; [exact Tr|]. rewrite (levels_one n E1). simpl. lia.
    + exists []. split; [apply traced_refl|apply pow2_pos].
  - rewrite (levels_pred n E0). rewrite Nat.pow_succ_r'.
    destruct (solveHanoi_fuel depth (n - 1) f a t st) as [st1| |] eqn:P1;
      simpl in H; try discriminate.
    destruct (IH _ _ _ _ _ _ P1) as (ms1 & T1 & B1).
    destruct (emitMove f t st1) as [[st2|]| |] eqn:Em; simpl in H;
      try discriminate.
    + destruct (traced_emit f t st1 st2 Hf Ht Hft Em) as (m & T2).
      destruct (IH _ _ _ _ _ _ H) as (ms3 & T3 & B3).
      exists (ms1 ++ [m] ++ ms3). split.
      * eapply traced_trans; [exact T1|].
        eapply traced_trans; [exact T2|exact T3].
      * rewrite !length_app. simpl. lia.
    + inversion H; subst. exists ms1. split; [exact T1|]. lia.
Qed.

(** X1.  Whatever the arguments and whatever the rods hold, a call of
    [solveHanoi] that returns leaves as many rods as it found and, across
    them, the same disks with the same multiplicities. *)
Theorem solveHanoi_conserves_disks
    (n : number) (f t a : Z) (st st' : sim) :
  solveHanoi n f t a st = Returned st' ->
  List.length (sim_rods st') = List.length (sim_rods st) /\
  Permutation (List.concat (sim_rods st')) (List.concat (sim_rods st)).
Proof.
  intros H. destruct (solveHanoi_fuel_traced _ _ _ _ _ _ _ H) as (ms & T & _).
  split; [exact (tr_rods _ _ _ T) | exact (tr_perm _ _ _ T)].
Qed.

(** X2.  A returning call only appends to the move list: the moves it was
    given stay in front, and every move it adds names two different rods
    among A, B and C and carries a disk that was on the rods when the call
    began. *)
Theorem solveHanoi_appends_moves
    (n : number) (f t a : Z) (st st' : sim) :
  solveHanoi n f t a st = Returned st' ->
  exists ms,
    sim_moves st' = sim_moves st ++ ms /\
    Forall rodNamed ms /\
    Forall (fun m => In (disk m) (List.concat (sim_rods st))) ms.
Proof.
  intros H. destruct (solveHanoi_fuel_traced _ _ _ _ _ _ _ H) as (ms & T & _).
  exists ms. split; [exact (tr_moves _ _ _ T)|].
  split; [exact (tr_named _ _ _ T) | exact (tr_disks _ _ _ T)].
Qed.

(** X3.  A returning call adds fewer than [2 ^ levels n] moves, where
    [levels n] is [n] rounded up (0 for [n <= 0]); this holds on any rods,
    also when fewer disks are there than [n] asks for. *)
Theorem solveHanoi_move_bound
    (n : number) (f t a : Z) (st st' : sim) :
  solveHanoi n f t a st = Returned st' ->
  (List.length (sim_moves st') < List.length (sim_moves st) + 2 ^ levels n)%nat.
Proof.
  intros H. destruct (solveHanoi_fuel_traced _ _ _ _ _ _ _ H) as (ms & T & B).
  rewrite (tr_moves _ _ _ T), length_app. lia.
Qed.

(** X4.  The moves a returning call adds are a trace of what it did to the
    rods: carried out in order on the rods the call began with (take the
    top disk of the named source rod, which is the recorded disk, and put
    it on the named destination rod) they produce the rods the call ends
    with; and the history grows by one configuration per move. *)
Theorem solveHanoi_moves_are_a_trace
    (n : number) (f t a : Z) (st st' : sim) :
  solveHanoi n f t a st = Returned st' ->
  exists ms hs,
    sim_moves st' = sim_moves st ++ ms /\
    performMoves ms (sim_rods st) = Some (sim_rods st') /\
    sim_history st' = sim_history st ++ hs /\
    List.length hs = List.length ms.
Proof.
  intros H. destruct (solveHanoi_fuel_traced _ _ _ _ _ _ _ H) as (ms & T & _).
  destruct (tr_history _ _ _ T) as (hs & Hh & Hl).
  exists ms, hs. split; [exact (tr_moves _ _ _ T)|].
  split; [exact (tr_perform _ _ _ T)|]. now split.
Qed.

(** X21.  A one-disk call does not compare sizes: with usable roles and
    [n == 1], the top disk of rod [f] goes onto rod [t] whatever rod [t]
    holds, also onto a smaller disk, and one move is recorded. *)
Theorem single_disk_move_is_unchecked
    (n : number) (f t a : Z) (F T : list number) (d : number) (st : sim) :
  rolesOk f t a -> n == 1 ->
  rod f (sim_rods st) = Some (F ++ [d]) ->
  rod t (sim_rods st) = Some T ->
  exists st',
    solveHanoi n f t a st = Returned st' /\
    rod f (sim_rods st') = Some F /\
    rod t (sim_rods st') = Some (T ++ [d]) /\
    sim_moves st' =
      sim_moves st ++ [moveRecord (List.length (sim_moves st)) f t d].
Proof.
  intros Hr Hn Hsrc Hdst.
  destruct (roles_guard_pass _ _ _ Hr) as [G1 G2].
  destruct Hr as (Hf & Ht & _ & Hft & _).
  unfold solveHanoi, callDepth. rewrite solveHanoi_fuel_S.
  assert (E0 : Qle_bool n 0 = false).
  { destruct (Qle_bool n 0) eqn:E; [|reflexivity].
    apply Qle_bool_iff in E. rewrite Hn in E.
    unfold Qle in E. simpl in E. lia. }
  rewrite E0, G1, G2. apply Qeq_bool_iff in Hn. rewrite Hn.
  assert (Lf : (Z.to_nat f < List.length (sim_rods st))%nat)
    by (apply nth_error_Some; unfold rod in Hsrc; rewrite Hsrc; discriminate).
  assert (Lt : (Z.to_nat t < List.length (sim_rods st))%nat)
    by (apply nth_error_Some; unfold rod in Hdst; rewrite Hdst; discriminate).
  unfold emitMove. unfold rod in Hsrc, Hdst. rewrite Hsrc.
  replace (List.length (F ++ [d]) =? 0)%nat with false
    by (rewrite length_app; simpl; symmetry; apply Nat.eqb_neq; lia).
  change (F ++ [d]) with (push F d). rewrite (pop_push F d).
  rewrite nth_error_assign_ne by lia. rewrite Hdst. simpl bind.
  eexists. split; [reflexivity|]. cbn [sim_rods sim_moves]. unfold rod.
  split; [|split; [|reflexivity]].
  - rewrite nth_error_assign_ne by lia. now apply nth_error_assign_eq.
  - apply nth_error_assign_eq. now rewrite length_assign.
Qed.

(** ** Every solution [generateSolution] returns *)

(** What stands behind a returned solution. *)
Lemma generateSolution_inv (x : number) (sol : HanoiSolution) :
  generateSolution x = Returned sol ->
  1 <= x /\ x <= 8 /\
  exists cfg st,
    initRods (Z.to_nat (Qfloor x)) x [[]; []; []] = Returned cfg /\
    solveHanoi x 0 2 1
      {| sim_rods := cfg; sim_moves := []; sim_history := [cfg] |}
    = Returned st /\
    sol = {| numberOfDisks := x;
             moves := sim_moves st;
             totalMoves := arrayLength (sim_moves st);
             source := "cloud_generated";
             isValid := validateSolution (sim_moves st) x |}.
Proof.
  unfold generateSolution, simulate.
  destruct (Qlt_bool x 1 || Qlt_bool 8 x) eqn:R; [discriminate|].
  apply rangeCheck_false in R. destruct R as [H1 H8].
  destruct (initRods (Z.to_nat (Qfloor x)) x [[]; []; []]) as [cfg| |];
    simpl; try discriminate.
  destruct (solveHanoi x 0 2 1 _) as [st| |] eqn:E; simpl; try discriminate.
  intros H. inversion H; subst; clear H.
  split; [exact H1|]. split; [exact H8|]. exists cfg, st. auto.
Qed.

Lemma decimal_inj (j k : nat) : decimal j = decimal k -> j = k.
Proof.
  unfold decimal. intros H.
  assert (N : forall z, Z.to_int z <> Decimal.Pos Decimal.Nil /\
                        Z.to_int z <> Decimal.Neg Decimal.Nil).
  { intros z. pose proof (DecimalZ.to_of (Z.to_int z)) as E.
    rewrite DecimalZ.of_to in E. split; intros C; rewrite C in E;
      discriminate E. }
  apply (f_equal NilZero.int_of_string) in H.
  rewrite !NilZero.isi in H by apply N.
  inversion H as [H']. apply DecimalZ.to_int_inj in H'. lia.
Qed.

Lemma moveId_inj (j k : nat) : moveId j = moveId k -> j = k.
Proof.
  unfold moveId. intros H. simpl in H. inversion H. now apply decimal_inj.
Qed.

(** X5.  In every solution [generateSolution] returns, for an integer
    input or not, the identifiers are move-1, move-2, ... in list order, so
    no two moves share one. *)
Theorem generateSolution_ids (x : number) (sol : HanoiSolution) :
  generateSolution x = Returned sol ->
  map id (moves sol) = map moveId (seq 1 (List.length (moves sol))) /\
  NoDup (map id (moves sol)).
Proof.
  intros H. destruct (generateSolution_inv x sol H)
    as (_ & _ & cfg & st & _ & E & ->).
  destruct (solveHanoi_fuel_traced _ _ _ _ _ _ _ E) as (ms & T & _).
  pose proof (tr_moves _ _ _ T) as Hm. pose proof (tr_ids _ _ _ T) as Hi.
  simpl in Hm, Hi. simpl. rewrite Hm, Hi. split; [reflexivity|].
  apply Injective_map_NoDup; [|apply seq_NoDup].
  intros j k. apply moveId_inj.
Qed.

(** X6.  No solution [generateSolution] returns has more than 255 moves,
    for an integer input or not. *)
Theorem generateSolution_at_most_255_moves (x : number) (sol : HanoiSolution) :
  generateSolution x = Returned sol ->
  (List.length (moves sol) <= 255)%nat.
Proof.
  intros H. destruct (generateSolution_inv x sol H)
    as (H1 & H8 & cfg & st & _ & E & ->).
  destruct (solveHanoi_fuel_traced _ _ _ _ _ _ _ E) as (ms & T & B).
  pose proof (tr_moves _ _ _ T) as Hm. simpl in Hm. simpl. rewrite Hm.
  assert (L : (levels x <= 8)%nat).
  { unfold levels. apply Qceiling_resp_le in H8.
    change (Qceiling 8) with 8%Z in H8. lia. }
  assert (P : (2 ^ levels x <= 2 ^ 8)%nat) by (apply Nat.pow_le_mono_r; lia).
  change (2 ^ 8)%nat with 256%nat in P. lia.
Qed.

(** ** Moving any stack of disks *)

Lemma descending_suffix (l r : list number) :
  descending (l ++ r) -> descending r.
Proof.
  unfold descending. induction l as [|x l IH]; simpl; intros H; [exact H|].
  inversion H; subst. auto.
Qed.

Lemma descending_cons (d : number) (D : list number) :
  descending (d :: D) -> Forall (fun x => x < d) D.
Proof.
  unfold descending. intros H. now inversion H.
Qed.

Lemma smaller_tail (d : number) (D l : list number) :
  smaller (d :: D) l -> smaller D l.
Proof.
  unfold smaller. apply Forall_impl. intros x H. now inversion H.
Qed.

Lemma smaller_head (d : number) (D l : list number) :
  smaller (d :: D) l -> Forall (fun x => d < x) l.
Proof.
  unfold smaller. apply Forall_impl. intros x H. now inversion H.
Qed.

Lemma smaller_push (d : number) (D l : list number) :
  smaller (d :: D) l -> Forall (fun x => x < d) D -> smaller D (push l d).
Proof.
  intros Hl Hd. unfold smaller, push. apply Forall_app. split.
  - exact (smaller_tail _ _ _ Hl).
  - constructor; [exact Hd | constructor].
Qed.

Lemma levels_zero (n : number) : levels n = 0%nat -> n <= 0.
Proof.
  unfold levels. intros H.
  apply Qle_trans with (inject_Z (Qceiling n)); [apply Qle_ceiling|].
  change 0 with (inject_Z 0). rewrite <- Zle_Qle. lia.
Qed.

Lemma levels_positive (n : number) : (0 < levels n)%nat -> ~ n <= 0.
Proof.
  unfold levels. intros H L. apply Qceiling_resp_le in L.
  change (Qceiling 0) with 0%Z in L. lia.
Qed.

Lemma hanoiMoves_length (D : list number) :
  forall f t a count,
    S (List.length (hanoiMoves D f t a count)) = (2 ^ List.length D)%nat.
Proof.
  induction D as [|d D IH]; intros f t a count; [reflexivity|].
  cbn [hanoiMoves List.length]. rewrite length_app. cbn [List.length].
  rewrite Nat.pow_succ_r'.
  pose proof (IH f a t count).
  pose proof (IH a t f (S (count + List.length (hanoiMoves D f a t count)))).
  lia.
Qed.

(** [emitMove] on a rod that is not empty, with the record it appends. *)
Lemma emitMove_record (f t a : Z) (F T A : list number) (d : number) (st : sim) :
  rolesOk f t a -> threeRods st -> legal (sim_rods st) ->
  rod f (sim_rods st) = Some (push F d) ->
  rod t (sim_rods st) = Some T ->
  rod a (sim_rods st) = Some A ->
  Forall (fun x => d < x) T ->
  let m := moveRecord (List.length (sim_moves st)) f t d in
  let st' := {| sim_rods := afterMove f t F T d (sim_rods st);
                sim_moves := push (sim_moves st) m;
                sim_history :=
                  push (sim_history st) (afterMove f t F T d (sim_rods st)) |} in
  emitMove f t st = Returned (Some st') /\
  rod f (sim_rods st') = Some F /\
  rod t (sim_rods st') = Some (push T d) /\
  rod a (sim_rods st') = Some A /\
  threeRods st' /\ legal (sim_rods st') /\
  replayMove m (sim_rods st) = inr (sim_rods st').
Proof.
  intros (Hf & Ht & Ha & Hft & Hfa & Hta) H3 Hl Hsrc Hdst Haux Hab m st'.
  split.
  - unfold emitMove. unfold rod in Hsrc, Hdst. rewrite Hsrc.
    replace (List.length (push F d) =? 0)%nat with false
      by (unfold push; rewrite length_app; simpl;
          symmetry; apply Nat.eqb_neq; lia).
    rewrite pop_push.
    rewrite nth_error_assign_ne by lia. rewrite Hdst. reflexivity.
  - subst st'. cbn [sim_rods].
    split; [now apply afterMove_from|].
    split; [now apply afterMove_to|].
    split; [rewrite afterMove_other; auto; lia|].
    split; [now apply afterMove_length|].
    split; [eapply afterMove_legal; eauto|].
    now apply replayMove_afterMove.
Qed.

(** The solver on any stack.  Rod [f] carries the stack [D] on top of [F],
    [D] has as many disks as the call has levels, and every other disk in
    play is larger than the disks of [D].  Then the call returns, [D] sits
    on rod [t], the moves added are those of the textbook recursion, and
    every configuration on the way is legal. *)
Lemma solveHanoi_carries (D : list number) :
  forall depth n f t a st F T A,
    levels n = List.length D ->
    (List.length D < depth)%nat ->
    rolesOk f t a -> threeRods st -> legal (sim_rods st) ->
    rod f (sim_rods st) = Some (F ++ D) ->
    rod t (sim_rods st) = Some T ->
    rod a (sim_rods st) = Some A ->
    smaller D F -> smaller D T -> smaller D A ->
    exists st',
      solveHanoi_fuel depth n f t a st = Returned st' /\
      carried D F T A f t a st st'.
Proof.
  induction D as [|d D IH];
    intros depth n f t a st F T A Hlv Hd Hr H3 Hl Hf Ht Ha HF HT HA;
    (destruct depth as [|depth]; [simpl in Hd; lia|]);
    rewrite solveHanoi_fuel_S.
  - apply levels_zero in Hlv. apply Qle_bool_iff in Hlv. rewrite Hlv.
    exists st. split; [reflexivity|].
    rewrite app_nil_r in Hf.
    constructor; simpl; rewrite ?app_nil_r; auto.
    exists []. rewrite app_nil_r. auto.
  - assert (Hpos : ~ n <= 0)
      by (apply levels_positive; rewrite Hlv; simpl; lia).
    assert (E0 : Qle_bool n 0 = false).
    { destruct (Qle_bool n 0) eqn:E; [|reflexivity].
      apply Qle_bool_iff in E. contradiction. }
    rewrite E0.
    destruct (roles_guard_pass _ _ _ Hr) as [G1 G2]. rewrite G1, G2.
    assert (Hdesc : descending (d :: D)).
    { apply (descending_suffix F). eapply legal_rod; eauto. }
    pose proof (descending_cons _ _ Hdesc) as Hbelow.
    assert (Hf' : rod f (sim_rods st) = Some (push F d ++ D)).
    { rewrite Hf. unfold push. now rewrite <- app_assoc. }
    destruct (Qeq_bool n 1) eqn:E1.
    + apply Qeq_bool_iff in E1. rewrite (levels_one n E1) in Hlv.
      destruct D as [|d' D]; [|simpl in Hlv; lia].
      rewrite app_nil_r in Hf'.
      destruct (emitMove_record f t a F T A d st Hr H3 Hl Hf' Ht Ha
                  (smaller_head _ _ _ HT))
        as (E & R1 & R2 & R3 & H3' & Hl' & Hrep).
      rewrite E. simpl bind. eexists. split; [reflexivity|].
      constructor; cbn [sim_rods sim_moves sim_history]; auto.
      * cbn [hanoiMoves List.length app]. now rewrite Nat.add_0_r.
      * eexists [_]. repeat split. repeat constructor. exact Hl'.
      * cbn [hanoiMoves List.length app replay]. rewrite Nat.add_0_r.
        now rewrite Hrep.
    + assert (Hlv' : levels (n - 1) = List.length D).
      { rewrite (levels_pred n Hpos) in Hlv. simpl in Hlv. lia. }
      simpl in Hd.
      (* phase 1 *)
      destruct (IH depth (n - 1) f a t st (push F d) A T Hlv' ltac:(lia)
                  (rolesOk_phase1 _ _ _ Hr) H3 Hl Hf' Ha Ht
                  (smaller_push _ _ _ HF Hbelow)
                  (smaller_tail _ _ _ HA) (smaller_tail _ _ _ HT))
        as (st1 & E1' & C1).
      rewrite E1'. simpl bind.
      destruct C1 as [a1 b1 c1 d1 e1 m1 (hs1 & h1 & l1 & z1) r1].
      (* phase 2 *)
      destruct (emitMove_record f t a F T (A ++ D) d st1 Hr d1 e1 a1 c1 b1
                  (smaller_head _ _ _ HT))
        as (E2 & R1 & R2 & R3 & H32 & Hl2 & Hrep).
      rewrite E2. simpl bind. cbv iota.
      set (st2 := {| sim_rods := afterMove f t F T d (sim_rods st1);
                     sim_moves := _; sim_history := _ |}) in *.
      (* phase 3 *)
      destruct (IH depth (n - 1) a t f st2 A (push T d) F Hlv' ltac:(lia)
                  (rolesOk_phase3 _ _ _ Hr) H32 Hl2 R3 R2 R1
                  (smaller_tail _ _ _ HA)
                  (smaller_push _ _ _ HT Hbelow) (smaller_tail _ _ _ HF))
        as (st3 & E3 & C3).
      exists st3. split; [exact E3|].
      destruct C3 as [a3 b3 c3 d3 e3 m3 (hs3 & h3 & l3 & z3) r3].
      assert (Len1 : List.length (sim_moves st1) =
                     (List.length (sim_moves st) +
                      List.length
                        (hanoiMoves D f a t (List.length (sim_moves st))))%nat)
        by (rewrite m1; apply length_app).
      assert (Len2 : List.length (sim_moves st2) =
                     S (List.length (sim_moves st1))).
      { subst st2. cbn [sim_moves]. unfold push. rewrite length_app.
        simpl. lia. }
      rewrite Len2, Len1 in m3, r3.
      constructor.
      * exact c3.
      * rewrite b3. unfold push. now rewrite <- app_assoc.
      * exact a3.
      * exact d3.
      * exact e3.
      * rewrite m3. subst st2. cbn [sim_moves hanoiMoves].
        rewrite Len1, m1. unfold push. now rewrite <- !app_assoc.
      * exists (hs1 ++ sim_rods st2 :: hs3). split; [|split].
        -- rewrite h3. subst st2. cbn [sim_history sim_rods].
           rewrite h1. unfold push. now rewrite <- !app_assoc.
        -- apply Forall_app. split; [exact l1|]. now constructor.
        -- rewrite last_app_cons. exact z3.
      * cbn [hanoiMoves]. rewrite (replay_app _ _ _ _ r1).
        cbn [replay]. rewrite <- Len1. rewrite Hrep.
        rewrite Len1. exact r3.
Qed.

(** X7.  [solveHanoi] is correct for any stack, any roles and any frame:
    if rod [f] carries a stack [D] of [levels n] disks on top of [F], the
    rods are legal and every disk outside [D] is larger than the disks of
    [D], then the call returns with [D] on rod [t] on top of what was
    there, rods [f] and [a] holding what else they held, after exactly
    [2 ^ |D| - 1] moves that replay without error, through legal
    configurations only. *)
Theorem solveHanoi_carries_any_stack
    (n : number) (f t a : Z) (st : sim) (D F T A : list number) :
  levels n = List.length D ->
  rolesOk f t a -> threeRods st -> legal (sim_rods st) ->
  rod f (sim_rods st) = Some (F ++ D) ->
  rod t (sim_rods st) = Some T ->
  rod a (sim_rods st) = Some A ->
  smaller D F -> smaller D T -> smaller D A ->
  exists st' ms hs,
    solveHanoi n f t a st = Returned st' /\
    rod f (sim_rods st') = Some F /\
    rod t (sim_rods st') = Some (T ++ D) /\
    rod a (sim_rods st') = Some A /\
    sim_moves st' = sim_moves st ++ ms /\
    S (List.length ms) = (2 ^ List.length D)%nat /\
    replay ms (sim_rods st) = inr (sim_rods st') /\
    sim_history st' = sim_history st ++ hs /\
    Forall legal hs.
Proof.
  intros Hlv Hr H3 Hl Hf Ht Ha HF HT HA.
  destruct (solveHanoi_carries D (callDepth n) n f t a st F T A Hlv
              ltac:(unfold callDepth; fold (levels n); lia)
              Hr H3 Hl Hf Ht Ha HF HT HA) as (st' & E & C).
  destruct C as [a1 b1 c1 d1 e1 m1 (hs1 & h1 & l1 & z1) r1].
  exists st', (hanoiMoves D f t a (List.length (sim_moves st))), hs1.
  split; [exact E|]. repeat (split; [assumption|]).
  split; [apply hanoiMoves_length|]. auto.
Qed.

(** ** The loading loop *)

Lemma Qfloor_minus_1 (i : Q) : Qfloor (i - 1) = (Qfloor i - 1)%Z.
Proof.
  apply Z.le_antisymm; [pose proof (Qfloor_pred i); lia|].
  rewrite <- (Qfloor_Z (Qfloor i - 1)).
  apply Qfloor_resp_le. rewrite <- inject_Z_pred.
  apply Qplus_le_l, Qfloor_le.
Qed.

Lemma Qpred_lt (i : Q) : i - 1 < i.
Proof.
  unfold Qminus. rewrite <- (Qplus_0_r i) at 2.
  apply Qplus_lt_r. reflexivity.
Qed.

Lemma initRods_countdown (m : nat) :
  forall bound i rod0 rest,
    (m <= bound)%nat -> m = Z.to_nat (Qfloor i) ->
    initRods bound i (rod0 :: rest) =
    Returned ((rod0 ++ countdown i m) :: rest).
Proof.
  induction m as [|m IH]; intros bound i rod0 rest Hb Hm.
  - assert (E : Qle_bool 1 i = false).
    { destruct (Qle_bool 1 i) eqn:E; [|reflexivity].
      apply Qle_bool_iff, Qfloor_resp_le in E.
      change (Qfloor 1) with 1%Z in E. lia. }
    destruct bound; simpl; rewrite E, app_nil_r; reflexivity.
  - destruct bound as [|bound]; [lia|]. simpl initRods.
    assert (E : Qle_bool 1 i = true).
    { apply Qle_bool_iff.
      apply Qle_trans with (inject_Z (Qfloor i)); [|apply Qfloor_le].
      change 1 with (inject_Z 1). rewrite <- Zle_Qle. lia. }
    rewrite E. rewrite (IH bound (i - 1)); [|lia|].
    + unfold push. simpl. now rewrite <- app_assoc.
    + rewrite Qfloor_minus_1. lia.
Qed.

Lemma countdown_length (m : nat) : forall i, List.length (countdown i m) = m.
Proof.
  induction m as [|m IH]; intros i; simpl; [reflexivity|]. now rewrite IH.
Qed.

Lemma countdown_at_least_1 (m : nat) :
  forall i : Q, (Z.of_nat m <= Qfloor i)%Z ->
    Forall (fun d => 1 <= d) (countdown i m).
Proof.
  induction m as [|m IH]; intros i H; simpl; constructor.
  - apply Qle_trans with (inject_Z (Qfloor i)); [|apply Qfloor_le].
    change 1 with (inject_Z 1). rewrite <- Zle_Qle. lia.
  - apply IH. rewrite Qfloor_minus_1. lia.
Qed.

Lemma countdown_below (m : nat) :
  forall i y : Q, i < y -> Forall (fun e => e < y) (countdown i m).
Proof.
  induction m as [|m IH]; intros i y H; simpl; constructor; [exact H|].
  apply IH. eapply Qlt_trans; [apply Qpred_lt | exact H].
Qed.

Lemma countdown_descending (m : nat) : forall i, descending (countdown i m).
Proof.
  unfold descending. induction m as [|m IH]; intros i; simpl; constructor.
  - apply IH.
  - apply countdown_below, Qpred_lt.
Qed.

(** X8.  The loading loop of [generateSolution] pushes onto rod 0, in this
    order, [x], [x - 1], ... as long as the value is at least 1: that is
    [x] rounded down many disks, none for [x < 1]; the other rods are not
    touched.  On an integer [x >= 0] these are the disks [x..1]. *)
Theorem initRods_loads_countdown
    (x : number) (bound : nat) (rod0 : list number) (rest : list (list number)) :
  (Z.to_nat (Qfloor x) <= bound)%nat ->
  initRods bound x (rod0 :: rest) =
    Returned ((rod0 ++ countdown x (Z.to_nat (Qfloor x))) :: rest) /\
  Forall (fun d => 1 <= d) (countdown x (Z.to_nat (Qfloor x))) /\
  (forall k : nat, countdown (diskOf k) k = tower k).
Proof.
  intros Hb. split; [now apply initRods_countdown|]. split.
  - destruct (Z.to_nat (Qfloor x)) eqn:E; [constructor|].
    apply countdown_at_least_1. lia.
  - induction k as [|k IH]; [reflexivity|].
    cbn [countdown]. rewrite diskOf_pred, IH. reflexivity.
Qed.

(** ** Integer and fractional disk counts *)

Lemma tower_length (k : nat) : List.length (tower k) = k.
Proof.
  induction k as [|k IH]; [reflexivity|]. rewrite tower_S. simpl.
  now rewrite IH.
Qed.

Lemma levels_diskOf (k : nat) : levels (diskOf k) = k.
Proof.
  unfold levels, diskOf. rewrite Qceiling_Z. apply Nat2Z.id.
Qed.

Lemma three_rods_eq (cfg : list (list number)) (r0 r1 r2 : list number) :
  List.length cfg = 3%nat ->
  rod 0 cfg = Some r0 -> rod 1 cfg = Some r1 -> rod 2 cfg = Some r2 ->
  cfg = [r0; r1; r2].
Proof.
  unfold rod. intros H3 H0 H1 H2.
  destruct cfg as [|x0 [|x1 [|x2 [|]]]]; try discriminate.
  simpl in H0, H1, H2. congruence.
Qed.

Lemma generateSolution_hanoiMoves (n : Z) :
  (1 <= n <= 8)%Z ->
  exists sol,
    generateSolution (inject_Z n) = Returned sol /\
    moves sol = hanoiMoves (tower (Z.to_nat n)) 0 2 1 0.
Proof.
  intros Hn. destruct (in_range n Hn) as [H1 H8].
  destruct (generateSolution_returns _ H1 H8) as (st & E & G).
  eexists. split; [exact G|]. simpl.
  rewrite (inject_Z_diskOf n) in E by lia.
  set (k := Z.to_nat n) in *.
  unfold simulate in E.
  replace (Z.to_nat (Qfloor (diskOf k))) with k in E
    by (unfold diskOf; rewrite Qfloor_Z; now rewrite Nat2Z.id).
  rewrite (initRods_tower k k [] [] [] (Nat.le_refl k)) in E.
  simpl bind in E. simpl app in E.
  assert (Hr : rolesOk 0 2 1) by (unfold rolesOk; lia).
  assert (Hl : legal [tower k; []; []])
    by (repeat constructor; apply tower_descending).
  destruct (solveHanoi_carries (tower k) (callDepth (diskOf k)) (diskOf k)
              0 2 1
              {| sim_rods := [tower k; []; []]; sim_moves := [];
                 sim_history := [[tower k; []; []]] |} [] [] []
              ltac:(rewrite levels_diskOf, tower_length; reflexivity)
              ltac:(rewrite callDepth_diskOf, tower_length; lia)
              Hr eq_refl Hl eq_refl eq_refl eq_refl
              (Forall_nil _) (Forall_nil _) (Forall_nil _))
    as (st' & E' & C).
  unfold solveHanoi in E. rewrite E' in E. inversion E; subst st'.
  exact (ca_moves _ _ _ _ _ _ _ _ _ C).
Qed.

(** X9.  For every integer [n] from 1 to 8 the move list of
    [generateSolution(n)] is, record for record (identifier and
    description included), the list the textbook recursion produces for
    the tower [n..1] from rod A to rod C with rod B as the spare. *)
Theorem generateSolution_textbook_moves (n : Z) :
  (1 <= n <= 8)%Z ->
  exists sol,
    generateSolution (inject_Z n) = Returned sol /\
    moves sol = hanoiMoves (tower (Z.to_nat n)) 0 2 1 0.
Proof.
  exact (generateSolution_hanoiMoves n).
Qed.

Lemma nonInteger_ceiling (x : Q) :
  nonInteger x -> Qceiling x = (Qfloor x + 1)%Z.
Proof.
  intros Hx.
  assert (U : (Qceiling x <= Qfloor x + 1)%Z).
  { rewrite <- (Qceiling_Z (Qfloor x + 1)). apply Qceiling_resp_le.
    apply Qlt_le_weak, Qlt_floor. }
  assert (L : (Qfloor x <= Qceiling x)%Z)
    by (rewrite Zle_Qle; apply Qle_floor_ceiling).
  destruct (Z.eq_dec (Qceiling x) (Qfloor x)) as [E|E]; [|lia].
  exfalso. apply (Hx (Qfloor x)).
  apply Qle_antisym; [|apply Qfloor_le].
  rewrite <- E. apply Qle_ceiling.
Qed.

Lemma generateSolution_fractional_run (x : number) :
  1 <= x -> x <= 8 -> nonInteger x ->
  exists st sol,
    simulate x = Returned st /\
    generateSolution x = Returned sol /\
    moves sol = sim_moves st /\
    sim_rods st = [[]; countdown x (Z.to_nat (Qfloor x)); []] /\
    moves sol = hanoiMoves (countdown x (Z.to_nat (Qfloor x))) 0 1 2 0 /\
    S (List.length (moves sol)) = (2 ^ Z.to_nat (Qfloor x))%nat /\
    replay (moves sol) [countdown x (Z.to_nat (Qfloor x)); []; []] =
      inr [[]; countdown x (Z.to_nat (Qfloor x)); []].
Proof.
  intros H1 H8 Hx.
  destruct (generateSolution_returns x H1 H8) as (st & E & G).
  exists st. eexists. split; [exact E|]. split; [exact G|]. simpl.
  split; [reflexivity|].
  set (m := Z.to_nat (Qfloor x)) in *. set (D := countdown x m).
  assert (Hpos : ~ x <= 0).
  { intros L. apply (Qle_trans _ _ _ H1) in L.
    unfold Qle in L. simpl in L. lia. }
  assert (Hlv : levels (x - 1) = m).
  { unfold levels. rewrite Qceiling_minus_1, (nonInteger_ceiling x Hx).
    subst m. f_equal. lia. }
  assert (Hlx : levels x = S m) by (rewrite (levels_pred x Hpos); now f_equal).
  unfold simulate in E. fold m in E.
  rewrite (initRods_countdown m m x [] [[]; []] (Nat.le_refl m) eq_refl) in E.
  simpl bind in E. simpl app in E. fold D in E.
  unfold solveHanoi, callDepth in E. fold (levels x) in E. rewrite Hlx in E.
  rewrite solveHanoi_fuel_S in E.
  replace (Qle_bool x 0) with false in E
    by (symmetry; destruct (Qle_bool x 0) eqn:Q; [|reflexivity];
        apply Qle_bool_iff in Q; contradiction).
  cbv beta iota delta [Z.ltb Z.gtb Z.eqb Z.compare Pos.compare
                       Pos.compare_cont orb] in E.
  replace (Qeq_bool x 1) with false in E
    by (symmetry; destruct (Qeq_bool x 1) eqn:Q; [|reflexivity];
        apply Qeq_bool_iff in Q; exfalso; exact (Hx 1%Z Q)).
  assert (Hr : rolesOk 0 1 2) by (unfold rolesOk; lia).
  assert (Hl : legal [D; []; []])
    by (repeat constructor; apply countdown_descending).
  destruct (solveHanoi_carries D (S m) (x - 1) 0 1 2
              {| sim_rods := [D; []; []]; sim_moves := [];
                 sim_history := [[D; []; []]] |} [] [] []
              ltac:(rewrite Hlv; subst D; now rewrite countdown_length)
              ltac:(subst D; rewrite countdown_length; lia)
              Hr eq_refl Hl eq_refl eq_refl eq_refl
              (Forall_nil _) (Forall_nil _) (Forall_nil _))
    as (st1 & E1 & C).
  rewrite E1 in E. simpl bind in E.
  destruct C as [a1 b1 c1 d1 e1 m1 (hs1 & h1 & l1 & z1) r1].
  rewrite (emitMove_empty _ _ _ a1) in E. simpl in E.
  inversion E; subst st1; clear E.
  simpl in b1, m1, r1.
  pose proof (three_rods_eq _ _ _ _ d1 a1 b1 c1) as R.
  split; [exact R|]. split; [exact m1|]. split.
  - rewrite m1. rewrite hanoiMoves_length. subst D.
    now rewrite countdown_length.
  - rewrite m1, <- R. exact r1.
Qed.

(** X10.  For every [x] from 1 to 8 that is not an integer,
    [generateSolution(x)] returns a solution that does not solve the
    puzzle: rod 0 is loaded with [x] rounded down many disks [x], [x - 1],
    ..., the moves are those of the textbook recursion from rod A to rod B
    (one less than 2 to the number of disks), and the run ends with every
    disk on rod B and rod C empty. *)
Theorem generateSolution_fractional (x : number) :
  1 <= x -> x <= 8 -> nonInteger x ->
  exists st sol,
    simulate x = Returned st /\
    generateSolution x = Returned sol /\
    moves sol = sim_moves st /\
    sim_rods st = [[]; countdown x (Z.to_nat (Qfloor x)); []] /\
    moves sol = hanoiMoves (countdown x (Z.to_nat (Qfloor x))) 0 1 2 0 /\
    S (List.length (moves sol)) = (2 ^ Z.to_nat (Qfloor x))%nat /\
    replay (moves sol) [countdown x (Z.to_nat (Qfloor x)); []; []] =
      inr [[]; countdown x (Z.to_nat (Qfloor x)); []].
Proof.
  exact (generateSolution_fractional_run x).
Qed.

(** ** Shape of the textbook move list *)

Lemma hanoiMoves_disks (D : list number) :
  forall f t a count,
    Forall (fun m => In (disk m) D) (hanoiMoves D f t a count).
Proof.
  induction D as [|d D IH]; intros f t a count; [constructor|].
  cbn [hanoiMoves]. apply Forall_app. split; [|constructor].
  - eapply Forall_impl; [|apply IH]. intros m H. now right.
  - now left.
  - eapply Forall_impl; [|apply IH]. intros m H. now right.
Qed.

Lemma hanoiMoves_first_length (D : list number) (f t a : Z) (count : nat) :
  List.length (hanoiMoves D f t a count) = (2 ^ List.length D - 1)%nat.
Proof.
  pose proof (hanoiMoves_length D f t a count). lia.
Qed.

Lemma hanoiMoves_middle (d : number) (D : list number) (f t a : Z)
    (count : nat) :
  nth_error (hanoiMoves (d :: D) f t a count) (2 ^ List.length D - 1) =
  Some (moveRecord (count + (2 ^ List.length D - 1)) f t d).
Proof.
  cbn [hanoiMoves].
  rewrite nth_error_app2 by (rewrite hanoiMoves_first_length; lia).
  rewrite !hanoiMoves_first_length, Nat.sub_diag. reflexivity.
Qed.

Lemma hanoiMoves_bottom_once (d : number) (D : list number) (f t a : Z)
    (count i : nat) (m : HanoiMove) :
  Forall (fun x => x < d) D ->
  nth_error (hanoiMoves (d :: D) f t a count) i = Some m ->
  disk m == d ->
  i = (2 ^ List.length D - 1)%nat.
Proof.
  intros Hbelow Hn Hd.
  assert (Ho : forall f' t' a' c' j,
             nth_error (hanoiMoves D f' t' a' c') j = Some m -> False).
  { intros f' t' a' c' j Hj. apply nth_error_In in Hj.
    pose proof (hanoiMoves_disks D f' t' a' c') as Hall.
    rewrite Forall_forall in Hall, Hbelow.
    pose proof (Hbelow _ (Hall _ Hj)) as L. rewrite Hd in L.
    exact (Qlt_irrefl _ L). }
  cbn [hanoiMoves] in Hn.
  set (first := hanoiMoves D f a t count) in *.
  assert (Lf : List.length first = (2 ^ List.length D - 1)%nat)
    by apply hanoiMoves_first_length.
  destruct (Nat.lt_ge_cases i (List.length first)) as [Hlt|Hge].
  - rewrite nth_error_app1 in Hn by exact Hlt. exfalso. eapply Ho; eauto.
  - rewrite nth_error_app2 in Hn by exact Hge.
    destruct (i - List.length first)%nat as [|j] eqn:Ej; [lia|].
    simpl in Hn. exfalso. eapply Ho; eauto.
Qed.

Lemma hanoiMoves_cons (d : number) (D : list number) (f t a : Z)
    (count : nat) :
  hanoiMoves (d :: D) f t a count =
  hanoiMoves D f a t count ++
  moveRecord (count + List.length (hanoiMoves D f a t count)) f t d ::
  hanoiMoves D a t f (S (count + List.length (hanoiMoves D f a t count))).
Proof. reflexivity. Qed.

Lemma hanoiMoves_last (D : list number) :
  forall d f t a count dflt,
    disk (last (hanoiMoves (d :: D) f t a count) dflt) = last D d /\
    to (last (hanoiMoves (d :: D) f t a count) dflt) =
      nth (Z.to_nat t) rodNames EmptyString.
Proof.
  induction D as [|d' D IH]; intros d f t a count dflt.
  - cbn [hanoiMoves app last]. split; reflexivity.
  - rewrite (hanoiMoves_cons d (d' :: D)). rewrite last_app_cons.
    rewrite (last_cons D d' d). apply IH.
Qed.

Lemma hanoiMoves_first (D : list number) :
  forall d f t a count,
    exists m ms,
      hanoiMoves (d :: D) f t a count = m :: ms /\
      disk m = last D d /\
      from m = nth (Z.to_nat f) rodNames EmptyString /\
      to m = nth (Z.to_nat (if Nat.odd (S (List.length D)) then t else a))
                 rodNames EmptyString /\
      id m = moveId (S count).
Proof.
  induction D as [|d' D IH]; intros d f t a count.
  - eexists. exists []. cbn [hanoiMoves app List.length].
    split; [reflexivity|]. split; [reflexivity|]. split; [reflexivity|].
    split; [reflexivity|]. rewrite moveRecord_id. now rewrite Nat.add_0_r.
  - destruct (IH d' f a t count) as (m & ms & E & Hd & Hf & Ht & Hi).
    exists m. eexists. rewrite (hanoiMoves_cons d (d' :: D)).
    rewrite E. cbn [app].
    split; [reflexivity|]. split; [now rewrite (last_cons D d' d)|].
    split; [exact Hf|]. split; [|exact Hi].
    rewrite Ht. cbn [List.length].
    rewrite (Nat.odd_succ (S (List.length D))), Nat.even_succ.
    rewrite Nat.odd_succ, <- Nat.negb_odd.
    now destruct (Nat.odd (List.length D)).
Qed.

Lemma tower_top (k : nat) : last (tower k) (diskOf (S k)) = 1.
Proof.
  induction k as [|k IH]; [reflexivity|].
  rewrite tower_S, last_cons. exact IH.
Qed.

(** X11.  For every integer [n] from 1 to 8, the largest disk is moved
    exactly once in the solution of [generateSolution(n)]: by move number
    [2^(n-1)], from rod A to rod C. *)
Theorem largest_disk_moves_once (n : Z) :
  (1 <= n <= 8)%Z ->
  exists sol m,
    generateSolution (inject_Z n) = Returned sol /\
    nth_error (moves sol) (2 ^ (Z.to_nat n - 1) - 1) = Some m /\
    id m = moveId (2 ^ (Z.to_nat n - 1)) /\
    disk m = inject_Z n /\ from m = "A"%string /\ to m = "C"%string /\
    forall i m',
      nth_error (moves sol) i = Some m' -> disk m' == inject_Z n ->
      i = (2 ^ (Z.to_nat n - 1) - 1)%nat.
Proof.
  intros Hn. destruct (generateSolution_hanoiMoves n Hn) as (sol & G & M).
  assert (Hdn : inject_Z n = diskOf (Z.to_nat n))
    by (apply inject_Z_diskOf; lia).
  destruct (Z.to_nat n) as [|k] eqn:Ek; [lia|].
  rewrite tower_S in M.
  replace (S k - 1)%nat with k by lia.
  pose proof (hanoiMoves_middle (diskOf (S k)) (tower k) 0 2 1 0) as Mid.
  rewrite tower_length in Mid. rewrite <- M in Mid.
  exists sol. eexists.
  split; [exact G|]. split; [exact Mid|].
  split.
  { rewrite moveRecord_id. f_equal. pose proof (pow2_pos k). lia. }
  split; [now rewrite Hdn|]. split; [reflexivity|]. split; [reflexivity|].
  intros i m' Hi Hd. rewrite M in Hi. rewrite Hdn in Hd.
  pose proof (hanoiMoves_bottom_once _ _ _ _ _ _ _ _
                (tower_below k (S k) (Nat.lt_succ_diag_r k)) Hi Hd) as R.
  now rewrite tower_length in R.
Qed.

(** X12.  For every integer [n] from 1 to 8, the first and the last move
    of [generateSolution(n)] both carry disk 1: the first, move-1, takes it
    from rod A to rod C when [n] is odd and to rod B when [n] is even, and
    the last puts it on rod C. *)
Theorem first_and_last_move (n : Z) :
  (1 <= n <= 8)%Z ->
  exists sol first rest front final,
    generateSolution (inject_Z n) = Returned sol /\
    moves sol = first :: rest /\
    moves sol = front ++ [final] /\
    id first = "move-1"%string /\
    disk first = 1 /\ from first = "A"%string /\
    to first = (if Nat.odd (Z.to_nat n) then "C" else "B")%string /\
    disk final = 1 /\ to final = "C"%string.
Proof.
  intros Hn. destruct (generateSolution_hanoiMoves n Hn) as (sol & G & M).
  destruct (Z.to_nat n) as [|k] eqn:Ek; [lia|].
  rewrite tower_S in M.
  destruct (hanoiMoves_first (tower k) (diskOf (S k)) 0 2 1 0)
    as (m & ms & E & Hd & Hf & Ht & Hi).
  destruct (hanoiMoves_last (tower k) (diskOf (S k)) 0 2 1 0 m) as [Ld Lt].
  rewrite tower_top in Hd, Ld. rewrite tower_length in Ht.
  exists sol, m, ms, (removelast (moves sol)), (last (moves sol) m).
  split; [exact G|]. split; [now rewrite M|].
  split; [apply app_removelast_last; rewrite M, E; discriminate|].
  split; [exact Hi|]. split; [exact Hd|]. split; [exact Hf|].
  split; [rewrite Ht; now destruct (Nat.odd (S k))|].
  rewrite M. split; [exact Ld | exact Lt].
Qed.

(** ** More on the validator *)

Lemma forallb_Permutation {A : Type} (p : A -> bool) (l l' : list A) :
  Permutation l l' -> forallb p l = forallb p l'.
Proof.
  induction 1; simpl; try congruence.
  destruct (p x), (p y); reflexivity.
Qed.

(** X13.  The validator does not look at the order of the moves: a list
    and any rearrangement of it get the same verdict, for every disk
    count. *)
Theorem validateSolution_ignores_order
    (ms ms' : list HanoiMove) (x : number) :
  Permutation ms ms' -> validateSolution ms x = validateSolution ms' x.
Proof.
  intros P. unfold validateSolution, arrayLength.
  rewrite (Permutation_length P). now rewrite (forallb_Permutation _ _ _ P).
Qed.

(** X22.  The verdict of the validator does not certify that the moves
    can be played: for every integer [n] from 2 to 8, the moves of
    [generateSolution(n)] in reverse order still pass the validator for
    [n], although replaying them from the loaded rod A runs into an illegal
    step. *)
Theorem validator_accepts_unplayable_moves (n : Z) :
  (2 <= n <= 8)%Z ->
  exists sol e,
    generateSolution (inject_Z n) = Returned sol /\
    validateSolution (rev (moves sol)) (inject_Z n) = true /\
    replay (rev (moves sol)) [tower (Z.to_nat n); []; []] = inl e.
Proof.
  intros Hn.
  assert (C : (n = 2 \/ n = 3 \/ n = 4 \/ n = 5 \/ n = 6 \/ n = 7 \/ n = 8)%Z)
    by lia.
  destruct C as [->|[->|[->|[->|[->|[->| ->]]]]]];
    (eexists; eexists; split; [vm_compute; reflexivity|];
     split; vm_compute; reflexivity).
Qed.

Lemma pow2_negative (n k : Z) :
  (n < 0)%Z -> (0 <= k)%Z -> ~ inject_Z k == Qpower 2 n - 1.
Proof.
  intros Hn Hk H.
  assert (E : Qpower 2 n == inject_Z (k + 1)).
  { rewrite inject_Z_plus, H. unfold Qminus.
    rewrite <- Qplus_assoc. change (- (1) + inject_Z 1) with 0.
    now rewrite Qplus_0_r. }
  assert (P : Qpower 2 (n + - n) == Qpower 2 n * Qpower 2 (- n))
    by (apply Qpower_plus; discriminate).
  rewrite Z.add_opp_diag_r in P. rewrite E in P.
  change 2 with (inject_Z 2) in P at 2.
  rewrite <- (Zpower_Qpower 2 (- n)) in P by lia.
  rewrite <- inject_Z_mult in P.
  change (Qpower 2 0) with (inject_Z 1) in P.
  assert (G : (1 < 2 ^ (- n))%Z) by (apply Z.pow_gt_1; lia).
  set (K := (2 ^ (- n))%Z) in *. clearbody K.
  unfold Qeq, inject_Z in P. simpl in P. nia.
Qed.

(** X14.  At the small ends of the disk count: for a negative integer [n]
    the validator rejects every move list, and for [n = 0] it accepts the
    empty list and nothing else. *)
Theorem validateSolution_small_counts (ms : list HanoiMove) (n : Z) :
  ((n < 0)%Z -> validateSolution ms (inject_Z n) = false) /\
  (validateSolution ms (inject_Z 0) = true <-> ms = []).
Proof.
  split.
  - intros Hn. rewrite validateSolution_integer.
    destruct (Qeq_bool (arrayLength ms) (Qpower 2 n - 1)) eqn:E;
      [|reflexivity].
    apply Qeq_bool_iff in E. exfalso.
    apply (pow2_negative n (Z.of_nat (List.length ms)) Hn); [lia | exact E].
  - rewrite validateSolution_integer. split.
    + intros H. apply andb_true_iff in H. destruct H as [H _].
      apply Qeq_bool_iff in H. unfold arrayLength, Qeq in H. simpl in H.
      destruct ms; [reflexivity | simpl in H; lia].
    + intros ->. reflexivity.
Qed.

(** ** The callable function *)

Lemma truthy_in_range (x : number) : 1 <= x -> truthy (JNumber x) = true.
Proof.
  intros H. simpl. apply negb_true_iff.
  destruct (Qeq_bool x 0) eqn:E; [|reflexivity].
  apply Qeq_bool_iff in E. rewrite E in H. unfold Qle in H. simpl in H. lia.
Qed.

Lemma handler_accepts (data : jsValue) (x : number) :
  accepted data x ->
  exists sol,
    generateSolution x = Returned sol /\
    getTowerOfHanoiSolution data =
      ([InfoRequest x; InfoGenerated x (totalMoves sol)],
       Completed {| success := true; solution := Some sol; error := None |}).
Proof.
  intros (fields & -> & Hp & H1 & H8).
  destruct (generateSolution_returns x H1 H8) as (st & _ & G).
  eexists. split; [exact G|].
  unfold getTowerOfHanoiSolution, tryBlock. cbn [destructure].
  rewrite Hp, (truthy_in_range x H1). cbn [typeof numberOf negb orb].
  change (String.eqb "number" "number") with true. cbn [negb].
  rewrite (proj2 (rangeCheck_false x) (conj H1 H8)), G. reflexivity.
Qed.

Lemma handler_rejects (data : jsValue) :
  (forall x, ~ accepted data x) ->
  exists e,
    getTowerOfHanoiSolution data =
      ([ErrorGenerating e], Completed failureResponse).
Proof.
  intros Hno. unfold getTowerOfHanoiSolution, tryBlock.
  destruct (destructure "numberOfDisks" data) as [v|] eqn:Ed;
    [|eexists; reflexivity].
  destruct (negb (truthy v) || negb (String.eqb (typeof v) "number")) eqn:Ec;
    [eexists; reflexivity|].
  destruct (Qlt_bool (numberOf v) 1 || Qlt_bool 8 (numberOf v)) eqn:Er;
    [eexists; reflexivity|].
  exfalso. apply orb_false_iff in Ec. destruct Ec as [_ Ety].
  apply negb_false_iff in Ety.
  destruct v; try discriminate Ety.
  destruct data; try discriminate Ed. simpl in Ed. inversion Ed as [Hp].
  apply rangeCheck_false in Er. simpl in Er.
  apply (Hno x). exists fields. tauto.
Qed.

Lemma accepted_or_not (data : jsValue) :
  (exists x, accepted data x) \/ (forall x, ~ accepted data x).
Proof.
  destruct data as [| | b | y | str | fields];
    try (right; intros x (fs & E & _); discriminate E).
  destruct (getProperty "numberOfDisks" fields) as [| | b | y | str | fs] eqn:Ep;
    try (right; intros x (fs' & E & Hp & _); inversion E; subst;
         rewrite Ep in Hp; discriminate Hp).
  destruct (Qlt_le_dec y 1) as [L|L].
  { right. intros x (fs' & E & Hp & H1 & _). inversion E; subst.
    rewrite Ep in Hp. inversion Hp; subst. exact (Qlt_not_le _ _ L H1). }
  destruct (Qlt_le_dec 8 y) as [G|G].
  { right. intros x (fs' & E & Hp & _ & H8). inversion E; subst.
    rewrite Ep in Hp. inversion Hp; subst. exact (Qlt_not_le _ _ G H8). }
  left. exists y, fields. auto.
Qed.

(** X15.  The handler answers every request: whatever [request.data] is,
    it returns a response, which is either a success carrying a solution
    and no error text, or the one failure response whose text is
    "Internal server error."; nothing thrown inside escapes it. *)
Theorem handler_always_responds (data : jsValue) :
  exists log resp,
    getTowerOfHanoiSolution data = (log, Completed resp) /\
    ((exists sol,
        resp = {| success := true; solution := Some sol; error := None |}) \/
     resp = failureResponse).
Proof.
  destruct (accepted_or_not data) as [(x & Hx)|Hno].
  - destruct (handler_accepts data x Hx) as (sol & _ & E).
    eexists. eexists. split; [exact E|]. left. eauto.
  - destruct (handler_rejects data Hno) as (e & E).
    eexists. eexists. split; [exact E|]. now right.
Qed.

(** X16.  The handler reports success only for an accepted request, that
    is an object whose [numberOfDisks] is a number between 1 and 8; the
    response then carries exactly what [generateSolution] returned for that
    number, no error text, and the log holds the two info entries and no
    error entry. *)
Theorem handler_success_only_for_accepted
    (data : jsValue) (log : list logEntry) (resp : SolutionResponse) :
  getTowerOfHanoiSolution data = (log, Completed resp) ->
  success resp = true ->
  exists x sol,
    accepted data x /\
    generateSolution x = Returned sol /\
    resp = {| success := true; solution := Some sol; error := None |} /\
    log = [InfoRequest x; InfoGenerated x (totalMoves sol)].
Proof.
  intros H Hs. destruct (accepted_or_not data) as [(x & Hx)|Hno].
  - destruct (handler_accepts data x Hx) as (sol & G & E).
    rewrite E in H. inversion H; subst. exists x, sol. auto.
  - destruct (handler_rejects data Hno) as (e & E).
    rewrite E in H. inversion H; subst. discriminate Hs.
Qed.

(** X17.  Every accepted request succeeds, integer or not: the solver is
    called with the number as it arrived, its own range check never fires,
    and the solution it returns is handed back. *)
Theorem handler_accepted_succeeds (data : jsValue) (x : number) :
  accepted data x ->
  exists sol,
    generateSolution x = Returned sol /\
    getTowerOfHanoiSolution data =
      ([InfoRequest x; InfoGenerated x (totalMoves sol)],
       Completed {| success := true; solution := Some sol; error := None |}).
Proof.
  exact (handler_accepts data x).
Qed.

(** X18.  Why a request fails is written to the log and never returned.
    [undefined] or [null] data is a [TypeError]; a [numberOfDisks] that is
    missing, not a number, or the number 0 is the invalid-argument error
    "numberOfDisks must be a number."; any other number below 1 or above 8
    is the invalid-argument error "numberOfDisks must be between 1 and 8.".
    In all three cases the caller gets the same failure response. *)
Theorem handler_failure_reasons (data : jsValue) :
  (data = JUndefined \/ data = JNull ->
   getTowerOfHanoiSolution data =
     ([ErrorGenerating (Native TypeError)], Completed failureResponse)) /\
  (forall v,
      destructure "numberOfDisks" data = Some v ->
      (forall x, v = JNumber x -> x == 0) ->
      getTowerOfHanoiSolution data =
        ([ErrorGenerating (HttpsError "invalid-argument"
                                      "numberOfDisks must be a number.")],
         Completed failureResponse)) /\
  (forall x,
      destructure "numberOfDisks" data = Some (JNumber x) ->
      ~ x == 0 -> x < 1 \/ 8 < x ->
      getTowerOfHanoiSolution data =
        ([ErrorGenerating (HttpsError "invalid-argument"
                             "numberOfDisks must be between 1 and 8.")],
         Completed failureResponse)).
Proof.
  split; [|split].
  - intros [-> | ->]; reflexivity.
  - intros v Hd Hv. unfold getTowerOfHanoiSolution, tryBlock. rewrite Hd.
    assert (C : negb (truthy v) ||
                negb (String.eqb (typeof v) "number") = true).
    { destruct v; cbn [truthy typeof];
        try (apply orb_true_iff; right; reflexivity).
      apply orb_true_iff. left.
      rewrite negb_involutive. apply Qeq_bool_iff. now apply Hv. }
    now rewrite C.
  - intros x Hd Hx Hr. unfold getTowerOfHanoiSolution, tryBlock. rewrite Hd.
    assert (C : negb (truthy (JNumber x)) ||
                negb (String.eqb (typeof (JNumber x)) "number") = false).
    { cbn [truthy typeof]. rewrite negb_involutive.
      destruct (Qeq_bool x 0) eqn:E; [|reflexivity].
      apply Qeq_bool_iff in E. contradiction. }
    rewrite C. cbn [numberOf].
    assert (R : Qlt_bool x 1 || Qlt_bool 8 x = true).
    { apply orb_true_iff. rewrite !Qlt_bool_iff. exact Hr. }
    now rewrite R.
Qed.

(** X19.  End to end on integers: a request whose [numberOfDisks] is an
    integer [n] from 1 to 8 gets a success whose solution reports
    [2^n - 1] moves and [isValid = true], and whose moves replay from the
    loaded rod A to the full tower on rod C; the log shows the request and
    the count [2^n - 1]. *)
Theorem handler_integer_request (data : jsValue) (n : Z) :
  accepted data (inject_Z n) ->
  exists sol,
    getTowerOfHanoiSolution data =
      ([InfoRequest (inject_Z n);
        InfoGenerated (inject_Z n) (inject_Z (2 ^ n - 1))],
       Completed {| success := true; solution := Some sol; error := None |}) /\
    totalMoves sol = inject_Z (2 ^ n - 1) /\
    isValid sol = true /\
    replay (moves sol) [tower (Z.to_nat n); []; []] =
      inr [[]; []; tower (Z.to_nat n)].
Proof.
  intros Hacc.
  assert (Hn : (1 <= n <= 8)%Z).
  { destruct Hacc as (fields & _ & _ & H1 & H8).
    change 1 with (inject_Z 1) in H1. change 8 with (inject_Z 8) in H8.
    rewrite <- Zle_Qle in H1, H8. lia. }
  destruct (handler_accepts _ _ Hacc) as (sol & G & E).
  destruct (generateSolution_tower n Hn)
    as (st & ms & hs & _ & G' & M & R & _).
  rewrite G' in G. inversion G; subst sol; clear G.
  assert (C : Z.of_nat (List.length ms) = (2 ^ n - 1)%Z).
  { apply moves_count; [lia|]. exact (mv_count _ _ _ _ _ _ _ _ _ _ _ M). }
  exists {| numberOfDisks := inject_Z n;
            moves := ms;
            totalMoves := arrayLength ms;
            source := "cloud_generated";
            isValid := validateSolution ms (inject_Z n) |}.
  split; [|split; [|split]].
  - rewrite E. cbn [totalMoves]. unfold arrayLength. now rewrite C.
  - cbn [totalMoves]. unfold arrayLength. now rewrite C.
  - cbn [isValid]. rewrite validateSolution_integer.
    apply andb_true_iff. split.
    + apply Qeq_bool_iff. apply count_as_number; [lia | exact C].
    + exact (mv_valid _ _ _ _ _ _ _ _ _ _ _ M).
  - cbn [moves]. pose proof (mv_replay _ _ _ _ _ _ _ _ _ _ _ M) as P.
    rewrite R in P. exact P.
Qed.

(** X20.  End to end on a fraction: a request whose [numberOfDisks] is a
    number between 1 and 8 that is not an integer also gets a success, and
    the moves it carries take the loaded disks from rod A to rod B, leaving
    rod C empty. *)
Theorem handler_fractional_request (data : jsValue) (x : number) :
  accepted data x -> nonInteger x ->
  exists sol,
    getTowerOfHanoiSolution data =
      ([InfoRequest x; InfoGenerated x (totalMoves sol)],
       Completed {| success := true; solution := Some sol; error := None |}) /\
    S (List.length (moves sol)) = (2 ^ Z.to_nat (Qfloor x))%nat /\
    replay (moves sol) [countdown x (Z.to_nat (Qfloor x)); []; []] =
      inr [[]; countdown x (Z.to_nat (Qfloor x)); []].
Proof.
  intros Hacc Hx.
  destruct (handler_accepts _ _ Hacc) as (sol & G & E).
  destruct Hacc as (fields & _ & _ & H1 & H8).
  destruct (generateSolution_fractional_run x H1 H8 Hx)
    as (st & sol' & _ & G' & _ & _ & _ & Hc & Hr).
  rewrite G' in G. inversion G; subst sol'; clear G.
  exists sol. auto.
Qed.

End Solver.

Arguments Completed {A} a.
Arguments Raised {A} e.
Arguments Unfinished {A}.

(** ** Instances of the theorems *)

Lemma generateSolution_move_count_witness :
  (1 <= 3 <= 8)%Z /\
  exists sol,
    generateSolution plainFraction plainPow (inject_Z 3) = Returned sol /\
    Z.of_nat (List.length (moves sol)) = (2 ^ 3 - 1)%Z /\
    totalMoves sol = arrayLength (moves sol).
Proof.
  split; [lia|].
  apply (generateSolution_move_count plainFraction plainPow 3). lia.
Defined.

Lemma generateSolution_replays_witness :
  (1 <= 4 <= 8)%Z /\
  exists sol,
    generateSolution plainFraction plainPow (inject_Z 4) = Returned sol /\
    replay (moves sol) [tower (Z.to_nat 4); []; []] =
      inr [[]; []; tower (Z.to_nat 4)].
Proof.
  split; [lia|].
  apply (generateSolution_replays plainFraction plainPow 4). lia.
Defined.

Lemma generateSolution_isValid_witness :
  (1 <= 8 <= 8)%Z /\
  exists sol,
    generateSolution plainFraction plainPow (inject_Z 8) = Returned sol /\
    isValid sol = true.
Proof.
  split; [lia|].
  apply (generateSolution_isValid plainFraction plainPow 8). lia.
Defined.

Lemma simulation_invariant_witness :
  (1 <= 2 <= 8)%Z /\
  exists st sol,
    simulate plainFraction (inject_Z 2) = Returned st /\
    generateSolution plainFraction plainPow (inject_Z 2) = Returned sol /\
    moves sol = sim_moves st /\
    List.length (sim_history st) = S (List.length (sim_moves st)) /\
    hd [] (sim_history st) = [tower (Z.to_nat 2); []; []] /\
    last (sim_history st) [] = sim_rods st /\
    Forall (fun cfg =>
              List.length cfg = 3%nat /\
              legal cfg /\
              Permutation (List.concat cfg) (tower (Z.to_nat 2)))
           (sim_history st).
Proof.
  split; [lia|].
  apply (simulation_invariant plainFraction plainPow 2). lia.
Defined.

Lemma solveHanoi_rejects_bad_roles_witness :
  ~ rolesOk 0 0 1 /\
  solveHanoi plainFraction 3 0 0 1 emptyBoard = Returned emptyBoard /\
  forall depth,
    solveHanoi_fuel plainFraction (S depth) 3 0 0 1 emptyBoard =
    Returned emptyBoard.
Proof.
  split; [unfold rolesOk; lia|].
  apply (solveHanoi_rejects_bad_roles plainFraction 3 0 0 1 emptyBoard).
  unfold rolesOk. lia.
Defined.

Lemma solveHanoi_terminates_witness :
  exists sol, generateSolution plainFraction plainPow (3 # 2) = Returned sol.
Proof.
  apply (proj2 (proj2 (proj2 (solveHanoi_terminates plainFraction plainPow)))).
  - unfold Qle. simpl. lia.
  - unfold Qle. simpl. lia.
Defined.

Lemma generateSolution_range_error_witness :
  (10 < 1 \/ 8 < 10) /\
  generateSolution plainFraction plainPow 10 = Threw (Error rangeMessage).
Proof.
  split; [right; reflexivity|].
  apply (proj1 (generateSolution_range_error plainFraction plainPow 10)).
  right. reflexivity.
Defined.

Lemma empty_source_returns_silently_witness :
  rolesOk 0 2 1 /\ ~ 1 <= 0 /\
  solveHanoi_fuel plainFraction 1 1 0 2 1 emptyBoard = Returned emptyBoard.
Proof.
  split; [unfold rolesOk; lia|].
  split; [unfold Qle; simpl; lia|].
  apply (proj1 (empty_source_returns_silently plainFraction 0 1 0 2 1 emptyBoard
                  ltac:(unfold rolesOk; lia)
                  ltac:(unfold Qle; simpl; lia))).
  - reflexivity.
  - reflexivity.
Defined.


(** ** Instances of the further theorems *)

Lemma solveHanoi_conserves_disks_witness :
  solveHanoi plainFraction 1 0 2 1 oneDiskStart = Returned oneDiskDone /\
  List.length (sim_rods oneDiskDone) = List.length (sim_rods oneDiskStart) /\
  Permutation (List.concat (sim_rods oneDiskDone))
              (List.concat (sim_rods oneDiskStart)).
Proof.
  split; [reflexivity|].
  apply (solveHanoi_conserves_disks plainFraction 1 0 2 1). reflexivity.
Defined.

Lemma solveHanoi_appends_moves_witness :
  solveHanoi plainFraction 1 0 2 1 oneDiskStart = Returned oneDiskDone /\
  exists ms,
    sim_moves oneDiskDone = sim_moves oneDiskStart ++ ms /\
    Forall rodNamed ms /\
    Forall (fun m => In (disk m) (List.concat (sim_rods oneDiskStart))) ms.
Proof.
  split; [reflexivity|].
  apply (solveHanoi_appends_moves plainFraction 1 0 2 1). reflexivity.
Defined.

Lemma solveHanoi_move_bound_witness :
  solveHanoi plainFraction 1 0 2 1 oneDiskStart = Returned oneDiskDone /\
  (List.length (sim_moves oneDiskDone) <
   List.length (sim_moves oneDiskStart) + 2 ^ levels 1%Q)%nat.
Proof.
  split; [reflexivity|].
  apply (solveHanoi_move_bound plainFraction 1 0 2 1). reflexivity.
Defined.

Lemma solveHanoi_moves_are_a_trace_witness :
  solveHanoi plainFraction 1 0 2 1 oneDiskStart = Returned oneDiskDone /\
  exists ms hs,
    sim_moves oneDiskDone = sim_moves oneDiskStart ++ ms /\
    performMoves ms (sim_rods oneDiskStart) = Some (sim_rods oneDiskDone) /\
    sim_history oneDiskDone = sim_history oneDiskStart ++ hs /\
    List.length hs = List.length ms.
Proof.
  split; [reflexivity|].
  apply (solveHanoi_moves_are_a_trace plainFraction 1 0 2 1). reflexivity.
Defined.

Lemma generateSolution_ids_witness :
  generateSolution plainFraction plainPow 1 = Returned oneDiskSolution /\
  map id (moves oneDiskSolution) =
    map moveId (seq 1 (List.length (moves oneDiskSolution))) /\
  NoDup (map id (moves oneDiskSolution)).
Proof.
  split; [vm_compute; reflexivity|].
  apply (generateSolution_ids plainFraction plainPow 1).
  vm_compute. reflexivity.
Defined.

Lemma generateSolution_at_most_255_moves_witness :
  generateSolution plainFraction plainPow 1 = Returned oneDiskSolution /\
  (List.length (moves oneDiskSolution) <= 255)%nat.
Proof.
  split; [vm_compute; reflexivity|].
  apply (generateSolution_at_most_255_moves plainFraction plainPow 1).
  vm_compute. reflexivity.
Defined.

Lemma solveHanoi_carries_any_stack_witness :
  exists st' ms hs,
    solveHanoi plainFraction 2 1 0 2 midGame = Returned st' /\
    rod 1 (sim_rods st') = Some [9] /\
    rod 0 (sim_rods st') = Some ([7] ++ [5; 3]) /\
    rod 2 (sim_rods st') = Some [] /\
    sim_moves st' = sim_moves midGame ++ ms /\
    S (List.length ms) = (2 ^ List.length [5; 3])%nat /\
    replay ms (sim_rods midGame) = inr (sim_rods st') /\
    sim_history st' = sim_history midGame ++ hs /\
    Forall legal hs.
Proof.
  apply (solveHanoi_carries_any_stack plainFraction plainPow 2 1 0 2 midGame
           [5; 3] [9] [7] []).
  - reflexivity.
  - unfold rolesOk. lia.
  - reflexivity.
  - repeat (constructor; try reflexivity).
  - reflexivity.
  - reflexivity.
  - reflexivity.
  - repeat (constructor; try reflexivity).
  - repeat (constructor; try reflexivity).
  - constructor.
Defined.

Lemma initRods_loads_countdown_witness :
  (Z.to_nat (Qfloor (5 # 2)) <= 2)%nat /\
  initRods 2 (5 # 2) [[]; []; []] =
    Returned [[] ++ countdown (5 # 2) (Z.to_nat (Qfloor (5 # 2))); []; []].
Proof.
  split; [vm_compute; lia|].
  apply (initRods_loads_countdown (5 # 2) 2 [] [[]; []]).
  vm_compute. lia.
Defined.

Lemma generateSolution_textbook_moves_witness :
  (1 <= 3 <= 8)%Z /\
  exists sol,
    generateSolution plainFraction plainPow (inject_Z 3) = Returned sol /\
    moves sol = hanoiMoves plainFraction (tower (Z.to_nat 3)) 0 2 1 0.
Proof.
  split; [lia|].
  apply (generateSolution_textbook_moves plainFraction plainPow 3). lia.
Defined.

Lemma five_halves_nonInteger : nonInteger (5 # 2).
Proof.
  intros z H. unfold Qeq, inject_Z in H. simpl in H. lia.
Defined.

Lemma generateSolution_fractional_witness :
  1 <= 5 # 2 /\ 5 # 2 <= 8 /\ nonInteger (5 # 2) /\
  exists st sol,
    simulate plainFraction (5 # 2) = Returned st /\
    generateSolution plainFraction plainPow (5 # 2) = Returned sol /\
    moves sol = sim_moves st /\
    sim_rods st = [[]; countdown (5 # 2) (Z.to_nat (Qfloor (5 # 2))); []] /\
    moves sol =
      hanoiMoves plainFraction
        (countdown (5 # 2) (Z.to_nat (Qfloor (5 # 2)))) 0 1 2 0 /\
    S (List.length (moves sol)) = (2 ^ Z.to_nat (Qfloor (5 # 2)))%nat /\
    replay (moves sol) [countdown (5 # 2) (Z.to_nat (Qfloor (5 # 2))); []; []] =
      inr [[]; countdown (5 # 2) (Z.to_nat (Qfloor (5 # 2))); []].
Proof.
  split; [unfold Qle; simpl; lia|].
  split; [unfold Qle; simpl; lia|].
  split; [exact five_halves_nonInteger|].
  apply (generateSolution_fractional plainFraction plainPow (5 # 2)).
  - unfold Qle. simpl. lia.
  - unfold Qle. simpl. lia.
  - exact five_halves_nonInteger.
Defined.

Lemma largest_disk_moves_once_witness :
  (1 <= 3 <= 8)%Z /\
  exists sol m,
    generateSolution plainFraction plainPow (inject_Z 3) = Returned sol /\
    nth_error (moves sol) (2 ^ (Z.to_nat 3 - 1) - 1) = Some m /\
    id m = moveId (2 ^ (Z.to_nat 3 - 1)) /\
    disk m = inject_Z 3 /\ from m = "A"%string /\ to m = "C"%string /\
    forall i m',
      nth_error (moves sol) i = Some m' -> disk m' == inject_Z 3 ->
      i = (2 ^ (Z.to_nat 3 - 1) - 1)%nat.
Proof.
  split; [lia|].
  apply (largest_disk_moves_once plainFraction plainPow 3). lia.
Defined.

Lemma first_and_last_move_witness :
  (1 <= 4 <= 8)%Z /\
  exists sol first rest front final,
    generateSolution plainFraction plainPow (inject_Z 4) = Returned sol /\
    moves sol = first :: rest /\
    moves sol = front ++ [final] /\
    id first = "move-1"%string /\
    disk first = 1 /\ from first = "A"%string /\
    to first = (if Nat.odd (Z.to_nat 4) then "C" else "B")%string /\
    disk final = 1 /\ to final = "C"%string.
Proof.
  split; [lia|].
  apply (first_and_last_move plainFraction plainPow 4). lia.
Defined.

Lemma validateSolution_ignores_order_witness :
  Permutation movesFor2 (rev movesFor2) /\
  validateSolution plainPow movesFor2 2 =
  validateSolution plainPow (rev movesFor2) 2.
Proof.
  split; [apply Permutation_rev|].
  apply (validateSolution_ignores_order plainPow movesFor2 (rev movesFor2) 2).
  apply Permutation_rev.
Defined.

Lemma oneDiskRequest_accepted : accepted oneDiskRequest 1.
Proof.
  exists [("numberOfDisks"%string, JNumber 1)].
  split; [reflexivity|]. split; [reflexivity|].
  split; unfold Qle; simpl; lia.
Defined.

Lemma handler_success_only_for_accepted_witness :
  getTowerOfHanoiSolution plainFraction plainPow oneDiskRequest =
    ([InfoRequest 1; InfoGenerated 1 1],
     Completed {| success := true;
                  solution := Some oneDiskSolution;
                  error := None |}) /\
  exists x sol,
    accepted oneDiskRequest x /\
    generateSolution plainFraction plainPow x = Returned sol /\
    {| success := true; solution := Some oneDiskSolution; error := None |} =
    {| success := true; solution := Some sol; error := None |} /\
    [InfoRequest 1; InfoGenerated 1 1] =
    [InfoRequest x; InfoGenerated x (totalMoves sol)].
Proof.
  split; [vm_compute; reflexivity|].
  apply (handler_success_only_for_accepted plainFraction plainPow
           oneDiskRequest).
  - vm_compute. reflexivity.
  - reflexivity.
Defined.

Lemma handler_accepted_succeeds_witness :
  accepted oneDiskRequest 1 /\
  exists sol,
    generateSolution plainFraction plainPow 1 = Returned sol /\
    getTowerOfHanoiSolution plainFraction plainPow oneDiskRequest =
      ([InfoRequest 1; InfoGenerated 1 (totalMoves sol)],
       Completed {| success := true; solution := Some sol; error := None |}).
Proof.
  split; [exact oneDiskRequest_accepted|].
  apply (handler_accepted_succeeds plainFraction plainPow oneDiskRequest 1).
  exact oneDiskRequest_accepted.
Defined.

Lemma handler_integer_request_witness :
  accepted oneDiskRequest (inject_Z 1) /\
  exists sol,
    getTowerOfHanoiSolution plainFraction plainPow oneDiskRequest =
      ([InfoRequest (inject_Z 1);
        InfoGenerated (inject_Z 1) (inject_Z (2 ^ 1 - 1))],
       Completed {| success := true; solution := Some sol; error := None |}) /\
    totalMoves sol = inject_Z (2 ^ 1 - 1) /\
    isValid sol = true /\
    replay (moves sol) [tower (Z.to_nat 1); []; []] =
      inr [[]; []; tower (Z.to_nat 1)].
Proof.
  split; [exact oneDiskRequest_accepted|].
  apply (handler_integer_request plainFraction plainPow oneDiskRequest 1).
  exact oneDiskRequest_accepted.
Defined.

Lemma fractionalRequest_accepted : accepted fractionalRequest (5 # 2).
Proof.
  exists [("numberOfDisks"%string, JNumber (5 # 2))].
  split; [reflexivity|]. split; [reflexivity|].
  split; unfold Qle; simpl; lia.
Defined.

Lemma handler_fractional_request_witness :
  accepted fractionalRequest (5 # 2) /\ nonInteger (5 # 2) /\
  exists sol,
    getTowerOfHanoiSolution plainFraction plainPow fractionalRequest =
      ([InfoRequest (5 # 2); InfoGenerated (5 # 2) (totalMoves sol)],
       Completed {| success := true; solution := Some sol; error := None |}) /\
    S (List.length (moves sol)) = (2 ^ Z.to_nat (Qfloor (5 # 2)))%nat /\
    replay (moves sol) [countdown (5 # 2) (Z.to_nat (Qfloor (5 # 2))); []; []] =
      inr [[]; countdown (5 # 2) (Z.to_nat (Qfloor (5 # 2))); []].
Proof.
  split; [exact fractionalRequest_accepted|].
  split; [exact five_halves_nonInteger|].
  apply (handler_fractional_request plainFraction plainPow
           fractionalRequest (5 # 2)).
  - exact fractionalRequest_accepted.
  - exact five_halves_nonInteger.
Defined.

Lemma validateSolution_small_counts_witness :
  (-1 < 0)%Z /\ validateSolution plainPow [] (inject_Z (-1)) = false.
Proof.
  split; [lia|].
  apply (validateSolution_small_counts plainPow [] (-1)). lia.
Defined.

Lemma handler_failure_reasons_witness :
  ~ 9 == 0 /\ (9 < 1 \/ 8 < 9) /\
  getTowerOfHanoiSolution plainFraction plainPow
    (JObject [("numberOfDisks"%string, JNumber 9)]) =
    ([ErrorGenerating (HttpsError "invalid-argument"
                         "numberOfDisks must be between 1 and 8.")],
     Completed failureResponse).
Proof.
  split; [intros H; discriminate H|].
  split; [right; reflexivity|].
  apply (proj2 (proj2 (handler_failure_reasons plainFraction plainPow
                         (JObject [("numberOfDisks"%string, JNumber 9)])))
           9).
  - reflexivity.
  - intros H. discriminate H.
  - right. reflexivity.
Defined.

Lemma single_disk_move_is_unchecked_witness :
  exists st',
    solveHanoi plainFraction 1 0 2 1 largeOverSmall = Returned st' /\
    rod 0 (sim_rods st') = Some [] /\
    rod 2 (sim_rods st') = Some ([3] ++ [5]) /\
    sim_moves st' =
      sim_moves largeOverSmall ++
      [moveRecord plainFraction (List.length (sim_moves largeOverSmall)) 0 2 5].
Proof.
  apply (single_disk_move_is_unchecked plainFraction 1 0 2 1 [] [3] 5
           largeOverSmall).
  - unfold rolesOk. lia.
  - reflexivity.
  - reflexivity.
  - reflexivity.
Defined.

Lemma validator_accepts_unplayable_moves_witness :
  (2 <= 2 <= 8)%Z /\
  exists sol e,
    generateSolution plainFraction plainPow (inject_Z 2) = Returned sol /\
    validateSolution plainPow (rev (moves sol)) (inject_Z 2) = true /\
    replay (rev (moves sol)) [tower (Z.to_nat 2); []; []] = inl e.
Proof.
  split; [lia|].
  apply (validator_accepts_unplayable_moves plainFraction plainPow 2). lia.
Defined.

(** ** Where the code departs from its description *)

(** 1.5 is no integer, yet [generateSolution(1.5)] passes the range check
    and returns a solution: one move, of the "disk" 1.5. *)
Lemma fractional_count_is_accepted :
  (~ exists z : Z, 3 # 2 == inject_Z z) /\
  (forall fts mpf, exists sol,
      generateSolution fts mpf (3 # 2) = Returned sol /\
      List.map disk (moves sol) = [3 # 2] /\
      generateSolution fts mpf (3 # 2) <> Threw (Error rangeMessage)).
Proof.
  split.
  - intros [z H]. unfold Qeq, inject_Z in H. simpl in H. lia.
  - intros fts mpf. eexists. split; [vm_compute; reflexivity|].
    split; [reflexivity|]. vm_compute. discriminate.
Qed.

(** An empty source rod raises no error.  With one disk due and nothing on
    rod A the call just returns; with rod A holding a single disk and [n = 2]
    phase 1 takes that disk, phase 2 finds rod A empty and the call returns
    normally after one move; and [generateSolution(1.5)] hands back a
    solution whose run ended that way, with its disk left on rod B. *)
Lemma empty_source_raises_nothing :
  (forall fts, solveHanoi fts 1 0 2 1 emptyBoard = Returned emptyBoard) /\
  (forall fts, exists st,
      solveHanoi fts 2 0 2 1
        {| sim_rods := [[1]; []; []]; sim_moves := []; sim_history := [] |}
      = Returned st /\
      sim_rods st = [[]; [1]; []] /\
      List.length (sim_moves st) = 1%nat) /\
  (forall fts mpf, exists st sol,
      simulate fts (3 # 2) = Returned st /\
      sim_rods st = [[]; [3 # 2]; []] /\
      generateSolution fts mpf (3 # 2) = Returned sol /\
      moves sol = sim_moves st).
Proof.
  split; [|split].
  - intros fts. reflexivity.
  - intros fts. eexists. split; [vm_compute; reflexivity|].
    split; reflexivity.
  - intros fts mpf. eexists. eexists.
    split; [vm_compute; reflexivity|].
    split; [reflexivity|]. split; [vm_compute; reflexivity|]. reflexivity.
Qed.

(** The seventh move for three disks does not carry disk 3: under no
    runtime does the last move of [generateSolution(3)] have disk 3. *)
Lemma final_move_of_three_is_not_disk_3 :
  ~ exists fts mpf sol m,
      generateSolution fts mpf 3 = Returned sol /\
      nth_error (moves sol) 6 = Some m /\
      disk m == 3.
Proof.
  intros (fts & mpf & sol & m & G & N & D).
  vm_compute in G. inversion G; subst sol; clear G.
  simpl in N. inversion N; subst m; clear N.
  simpl in D. unfold Qeq in D. simpl in D. discriminate.
Qed.
